(** * Hierarchical market clearing: merit-order matcher and intermediate tier

    A shallow embedding of

    - [ClearingMarketOperator.clear_market]
      (src/mas4te/example_data/battery_market_demo.py), the merit-order
      matching walk, and
    - [PayAsClearIntermediateRole] / [PayAsClearIntermediateBidder]
      (src/assume/markets/clearing_algorithms/intermediate.py), the
      coupling of a lower market to its upper market.

    Numbers of the Python code are modelled as exact integers ([Z], Python's
    [int]); rounding of binary floating point is outside the model. *)

From stdpp Require Import gmap strings list fin_maps functions sorting.
From Stdlib Require Import ZArith Lia.

Open Scope Z_scope.

(** ** Python exceptions and outcomes *)

Module Py.

(** The built-in exceptions the modelled code can raise, and the two error
    names of the specification's taxonomy that the claims mention. *)
Inductive exn : Type :=
  | KeyError (key : string)
  | TypeError
  | UnboundLocalError (name : string)
  | InvalidStateError
  | InvalidOrder
  | UpstreamTimeout.

Inductive outcome (A : Type) : Type :=
  | Returns (a : A)
  | Raises (e : exn).

Arguments Returns {A} a.
Arguments Raises {A} e.

(** An exception ends the computation; [x ← m; k] runs [k] on the value
    that [m] returns. *)
Definition bind {A B} (m : outcome A) (k : A → outcome B) : outcome B :=
  match m with
  | Returns a => k a
  | Raises e => Raises e
  end.

#[export] Instance outcome_ret : MRet outcome := @Returns.
#[export] Instance outcome_bind : MBind outcome := λ A B k m, bind m k.

(** [sum(f(x) for x in l)] *)
Definition total {A} (f : A → Z) (l : list A) : Z :=
  foldr (λ x acc, f x + acc) 0 l.

(** [sorted(l, key=key)]: Python's sort is stable, and the result of a
    stable sort is determined by the input; it is computed here by
    insertion from the right, a new element going in front of the first
    element whose key is not smaller. *)
Fixpoint insert_by {A} (key : A → Z) (x : A) (l : list A) : list A :=
  match l with
  | [] => [x]
  | y :: l' =>
      if key x <=? key y then x :: y :: l'
      else y :: insert_by key x l'
  end.

Definition sorted {A} (key : A → Z) (l : list A) : list A :=
  foldr (insert_by key) [] l.

(** The order of a sorted list: by key, and by [before] among equal keys. *)
Definition merit {A} (key : A → Z) (before : relation A) : relation A :=
  λ x y, key x < key y ∨ (key x = key y ∧ before x y).

End Py.

(** ** battery_market_demo.py: the merit-order matcher *)

Module Demo.
Import Py.

(** The order dictionaries built by the bidding strategies of the file. *)
Record order : Type := Order {
  start_time : Z;
  end_time : Z;
  price : Z;
  volume : Z;
  node : string;
}.

(** An entry of [matched_orders]. *)
Record trade : Type := Trade {
  seller : string;
  buyer : string;
  trade_volume : Z;
  trade_price : Z;
}.

(** The dictionary [result] returned by [clear_market]. *)
Record result : Type := Result {
  clearing_price : option Z;
  matches : list trade;
}.

(** The orders are mutable objects shared between the received order
    books, [all_orders], [supply] and [demand]. The store is the list of
    these objects in submission order; an object is referred to by its
    position, each submitted order being an object of its own. *)
Abbreviation ref := nat.

Definition vol (st : list order) (i : ref) : Z :=
  match st !! i with Some o => volume o | None => 0 end.

Definition price_at (st : list order) (i : ref) : Z :=
  match st !! i with Some o => price o | None => 0 end.

Definition set_volume (o : order) (v : Z) : order :=
  {| start_time := start_time o; end_time := end_time o; price := price o;
     volume := v; node := node o |}.

(** [[o for o in all_orders if o["volume"] > 0]] and its demand twin, as
    references. *)
Definition supply_orders (all_orders : list order) : list ref :=
  filter (λ i, 0 < vol all_orders i) (seq 0 (length all_orders)).

Definition demand_orders (all_orders : list order) : list ref :=
  filter (λ i, vol all_orders i < 0) (seq 0 (length all_orders)).

(** The local variables of the walk, with the store. *)
Record locals : Type := Locals {
  orders : list order;
  supply_cursor : nat;
  demand_cursor : nat;
  cur_price : option Z;
  matched_orders : list trade;
}.

(** One evaluation of the loop condition and, when it holds, of the body.
    [None] is the end of the loop: a cursor at the end of its list, or the
    [break] of the else branch. A reference always points into the store,
    so the look-ups in [orders] succeed. The volumes are read again after
    each assignment, as the Python statements do. *)
Definition loop_body (supply demand : list ref) (st : locals) : option locals :=
  si ← supply !! supply_cursor st;
  di ← demand !! demand_cursor st;
  s ← orders st !! si;
  d ← orders st !! di;
  let supply_vol := volume s in
  let demand_vol := - volume d in
  if price d >=? price s then
    let traded := Z.min supply_vol demand_vol in
    let clearing := Z.max (price s) (price d) in
    let matched := matched_orders st ++
      [ {| seller := node s; buyer := node d;
           trade_volume := traded; trade_price := clearing |} ] in
    let st1 := <[si := set_volume s (volume s - traded)]> (orders st) in
    d1 ← st1 !! di;
    let st2 := <[di := set_volume d1 (volume d1 + traded)]> st1 in
    s2 ← st2 !! si;
    d2 ← st2 !! di;
    Some {| orders := st2;
            supply_cursor :=
              if volume s2 <=? 0 then S (supply_cursor st)
              else supply_cursor st;
            demand_cursor :=
              if volume d2 >=? 0 then S (demand_cursor st)
              else demand_cursor st;
            cur_price := Some clearing;
            matched_orders := matched |}
  else None.

(** The [while] loop; [None] when the fuel is used up before the loop
    ends. *)
Fixpoint while_loop (fuel : nat) (supply demand : list ref) (st : locals)
  : option locals :=
  match fuel with
  | O => None
  | S fuel' =>
      match loop_body supply demand st with
      | None => Some st
      | Some st' => while_loop fuel' supply demand st'
      end
  end.

Definition supply_of (all_orders : list order) : list ref :=
  sorted (λ i, price_at all_orders i) (supply_orders all_orders).

Definition demand_of (all_orders : list order) : list ref :=
  sorted (λ i, - price_at all_orders i) (demand_orders all_orders).

Definition initial (all_orders : list order) : locals :=
  {| orders := all_orders; supply_cursor := 0%nat; demand_cursor := 0%nat;
     cur_price := None; matched_orders := [] |}.

(** [clear_market], up to the construction of [result]: the returned
    dictionary and the store as the walk leaves it. The statements after
    it (state of charge of the battery, notification of the agents) read
    [matched_orders] and change neither. *)
Definition clear_market (received_orderbooks : list (list order))
  : option (result * list order) :=
  let all_orders := concat received_orderbooks in
  let supply := supply_of all_orders in
  let demand := demand_of all_orders in
  st ← while_loop (S (length supply + length demand)) supply demand
         (initial all_orders);
  Some ({| clearing_price := cur_price st; matches := matched_orders st |},
        orders st).

(** Accepted volume of an order: original volume minus remaining volume. *)
Definition accepted_volume (before after : list order) (i : ref) : Z :=
  vol before i - vol after i.

(** The invariant of the walk over the orders [all_orders]. *)
Record inv (all_orders : list order) (s : locals) : Prop := {
  inv_same : ∀ i o0, all_orders !! i = Some o0 →
    ∃ v, orders s !! i = Some (set_volume o0 v);
  inv_length : length (orders s) = length all_orders;
  inv_zero : ∀ i, vol all_orders i = 0 → orders s !! i = all_orders !! i;
  inv_supply : ∀ i, 0 < vol all_orders i →
    0 ≤ vol (orders s) i ≤ vol all_orders i;
  inv_demand : ∀ i, vol all_orders i < 0 →
    vol all_orders i ≤ vol (orders s) i ≤ 0;
  inv_supply_live : ∀ k i, supply_of all_orders !! k = Some i →
    (supply_cursor s ≤ k)%nat → 0 < vol (orders s) i;
  inv_demand_live : ∀ k i, demand_of all_orders !! k = Some i →
    (demand_cursor s ≤ k)%nat → vol (orders s) i < 0;
  inv_supply_total :
    total (accepted_volume all_orders (orders s)) (supply_of all_orders)
    = total trade_volume (matched_orders s);
  inv_demand_total :
    total (accepted_volume all_orders (orders s)) (demand_of all_orders)
    = - total trade_volume (matched_orders s);
  inv_price :
    match cur_price s with
    | None => matched_orders s = []
    | Some p =>
        matched_orders s ≠ [] ∧
        ∃ i j, 0 < vol all_orders i ∧ vol all_orders j < 0 ∧
               accepted_volume all_orders (orders s) i ≠ 0 ∧
               accepted_volume all_orders (orders s) j ≠ 0 ∧
               price_at all_orders i ≤ p ≤ price_at all_orders j
    end;
}.

(** The number of orders the cursors have still to pass. *)
Definition remaining (all_orders : list order) (s : locals) : nat :=
  (length (supply_of all_orders) - supply_cursor s) +
  (length (demand_of all_orders) - demand_cursor s).

(** [min] and [max] of a list of prices, [None] for the empty list. *)
Definition lowest (l : list Z) : option Z :=
  foldr (λ x acc, Some (match acc with Some m => Z.min x m | None => x end))
        None l.

Definition highest (l : list Z) : option Z :=
  foldr (λ x acc, Some (match acc with Some m => Z.max x m | None => x end))
        None l.

(** Prices of the supply (demand) orders with non-zero accepted volume. *)
Definition accepted_supply_prices (before after : list order) : list Z :=
  price_at before <$>
    filter (λ i, accepted_volume before after i ≠ 0) (supply_orders before).

Definition accepted_demand_prices (before after : list order) : list Z :=
  price_at before <$>
    filter (λ i, accepted_volume before after i ≠ 0) (demand_orders before).

(** No supply order and demand order are price-compatible: every demand
    price is below every supply price. *)
Definition no_feasible_pair (st : list order) : Prop :=
  Forall (λ i, Forall (λ j, price_at st j < price_at st i) (demand_orders st))
         (supply_orders st).

#[export] Instance no_feasible_pair_dec st : Decision (no_feasible_pair st).
Proof. unfold no_feasible_pair. apply _. Defined.

(** A call of [clear_market] as its caller sees it. The body has no
    [raise] statement and reads only keys that every order of the file
    has, so a call that comes back returns. *)
Definition call_clear_market (received_orderbooks : list (list order))
  : option (outcome (result * list order)) :=
  Returns <$> clear_market received_orderbooks.

(** The fixture of the matching-walk scenario. *)
Definition fixture : list (list order) :=
  [ [ Order 0 1 10 50 "S1"; Order 0 1 30 50 "S2" ];
    [ Order 0 1 40 (-60) "D1"; Order 0 1 5 (-40) "D2" ] ].

(** What the walk makes of the fixture. *)
Definition fixture_result : result :=
  {| clearing_price := Some 40;
     matches := [ Trade "S1" "D1" 50 40; Trade "S2" "D1" 10 40 ] |}.

Definition fixture_after : list order :=
  [ Order 0 1 10 0 "S1"; Order 0 1 30 40 "S2";
    Order 0 1 40 0 "D1"; Order 0 1 5 (-40) "D2" ].

(** The scenario as the specification words it: 50 units at price 40, then
    10 units at price 30, and a clearing price of 30. *)
Definition fixture_as_specified : Prop :=
  ∃ after,
    clear_market fixture =
      Some ({| clearing_price := Some 30;
               matches := [ Trade "S1" "D1" 50 40; Trade "S2" "D1" 10 30 ] |},
            after).

(** An order book without a feasible pair, and one with an order of zero
    volume. *)
Definition no_clear_book : list (list order) :=
  [ [ Order 0 1 50 20 "S1"; Order 0 1 40 (-20) "D1" ] ].

Definition zero_volume_book : list (list order) :=
  [ [ Order 0 1 10 0 "Z1"; Order 0 1 10 50 "S1"; Order 0 1 40 (-60) "D1" ] ].

(** Zero volume is refused with [InvalidOrder], as the specification has
    it. *)
Definition rejects_zero_volume (received_orderbooks : list (list order)) : Prop :=
  (∃ o, o ∈ concat received_orderbooks ∧ volume o = 0) →
  call_clear_market received_orderbooks = Some (Raises InvalidOrder).

End Demo.

(** ** intermediate.py: the lower market between two tiers *)

Module Intermediate.
Import Py.

(** Values stored in an order dictionary. *)
Inductive value : Type :=
  | VNum (z : Z)
  | VStr (s : string)
  | VNone.

#[export] Instance value_eq_dec : EqDecision value.
Proof. solve_decision. Defined.

(** An order is a Python [dict] with string keys. *)
Abbreviation order := (gmap string value).

(** A product is the tuple [(start_time, end_time, only_hours)]. *)
Definition product : Type := value * value * value.

(** [o[k]] *)
Definition getitem (o : order) (k : string) : outcome value :=
  match o !! k with
  | Some v => Returns v
  | None => Raises (KeyError k)
  end.

(** [-v] and [v - w] on dictionary values. *)
Definition neg (v : value) : outcome value :=
  match v with
  | VNum z => Returns (VNum (- z))
  | _ => Raises TypeError
  end.

Definition sub (v w : value) : outcome Z :=
  match v, w with
  | VNum a, VNum b => Returns (a - b)
  | _, _ => Raises TypeError
  end.

(** [itemgetter("start_time", "end_time", "only_hours")] *)
Definition market_getter (o : order) : outcome product :=
  s ← getitem o "start_time";
  e ← getitem o "end_time";
  h ← getitem o "only_hours";
  Returns (s, e, h).

(** [itertools.groupby]: the runs of consecutive elements with equal key,
    each with its key. The keys are computed first; a key that cannot be
    computed raises, as it does when the iteration reaches it. *)
Fixpoint keyed {A K} (key : A → outcome K) (l : list A) : outcome (list (K * A)) :=
  match l with
  | [] => Returns []
  | x :: l' =>
      k ← key x;
      kl ← keyed key l';
      Returns ((k, x) :: kl)
  end.

Fixpoint runs {A K} `{EqDecision K} (l : list (K * A)) : list (K * list A) :=
  match l with
  | [] => []
  | (k, x) :: l' =>
      match runs l' with
      | (k', g) :: gs =>
          if decide (k = k') then (k, x :: g) :: gs
          else (k, [x]) :: (k', g) :: gs
      | [] => [(k, [x])]
      end
  end.

Definition groupby {A K} `{EqDecision K} (l : list A) (key : A → outcome K)
  : outcome (list (K * list A)) :=
  kl ← keyed key l;
  Returns (runs kl).

(** A role registered with the agent. [clear] is inherited from
    [PayAsClearRole] (assume/markets/clearing_algorithms/simple.py, not among
    the sources): it is carried by the role as a function of the order book
    and the products, giving the accepted and the rejected orders (the two
    components of its result that [formulate_bids] uses). *)
Inductive role : Type :=
  | PayAsClearIntermediateRole
      (clear : list order → list product → list order * list order)
  | OtherRole.

(** The loop over the groups of rejected orders. *)
Definition extend_rejected (products : list product)
    (rejected_orderbook : list order) (groups : list (product * list order))
  : list order :=
  foldl (λ book '(product, product_orders),
           if decide (product ∈ products) then book ++ product_orders
           else book)
        rejected_orderbook groups.

(** The loop over the roles: the rejected order book, and [accepted] when
    the loop has bound it. *)
Fixpoint roles_loop (roles : list role) (all_orders : list order)
    (products : list product) (rejected_orderbook : list order)
  : outcome (list order * option (list order)) :=
  match roles with
  | [] => Returns (rejected_orderbook, None)
  | PayAsClearIntermediateRole clear :: _ =>
      let '(accepted, rejected) := clear all_orders products in
      groups ← groupby rejected market_getter;
      Returns (extend_rejected products rejected_orderbook groups,
               Some accepted)
  | OtherRole :: roles' =>
      roles_loop roles' all_orders products rejected_orderbook
  end.

(** The loop over the accepted orders. *)
Fixpoint residual_loop (accepted : list order) (rejected_orderbook : list order)
  : outcome (list order) :=
  match accepted with
  | [] => Returns rejected_orderbook
  | order :: accepted' =>
      v ← getitem order "volume";
      av ← getitem order "accepted_volume";
      remaining ← sub v av;
      if Z.abs remaining >? 1 then
        let o := <["volume" := VNum remaining]> order in
        residual_loop accepted' (rejected_orderbook ++ [o])
      else residual_loop accepted' rejected_orderbook
  end.

(** [formulate_bids] reads the orders and assigns to none of them (a
    residual goes into a copy), so it is given the orders by value. *)
Definition formulate_bids (roles : list role) (all_orders : list order)
    (products : list product) : outcome (list order) :=
  '(rejected_orderbook, accepted) ← roles_loop roles all_orders products [];
  match accepted with
  | None => Raises (UnboundLocalError "accepted")
  | Some accepted => residual_loop accepted rejected_orderbook
  end.

(** [asyncio.Future] *)
Inductive future : Type :=
  | Pending
  | Done (result : string).

(** Order dictionaries are objects; [context.data] holds references. *)
Abbreviation loc := nat.

Record context : Type := Context {
  heap : loc → order;
  all_orders : list loc;
  wait_events : gmap string future;
}.

(** [setup] and [opening] of the role, as far as they touch
    [wait_events]. *)
Definition setup (c : context) : context :=
  {| heap := heap c; all_orders := all_orders c; wait_events := ∅ |}.

Definition opening (c : context) : context :=
  {| heap := heap c; all_orders := all_orders c;
     wait_events := <["upper" := Pending]> (wait_events c) |}.

(** The loop of [handle_market_feedback]. An exception leaves the context
    as the statements before it have made it. *)
Fixpoint feedback_loop (accepted_orders : list loc) (c : context)
  : context * outcome () :=
  match accepted_orders with
  | [] => (c, Returns ())
  | a :: rest =>
      let order := heap c a in
      match getitem order "accepted_volume" ≫= neg with
      | Raises e => (c, Raises e)
      | Returns v =>
          let order := <["volume" := v]> order in
          let order := delete "accepted_volume" order in
          let order := delete "accepted_price" order in
          feedback_loop rest
            {| heap := <[a := order]> (heap c);
               all_orders := all_orders c ++ [a];
               wait_events := wait_events c |}
      end
  end.

(** [future.set_result] *)
Definition set_result (key : string) (r : string) (c : context)
  : context * outcome () :=
  match wait_events c !! key with
  | None => (c, Raises (KeyError key))
  | Some (Done _) => (c, Raises InvalidStateError)
  | Some Pending =>
      ({| heap := heap c; all_orders := all_orders c;
          wait_events := <[key := Done r]> (wait_events c) |}, Returns ())
  end.

Definition handle_market_feedback (accepted_orders : list loc) (c : context)
  : context * outcome () :=
  match feedback_loop accepted_orders c with
  | (c', Returns _) => set_result "upper" "ready" c'
  | (c', Raises e) => (c', Raises e)
  end.

(** A coroutine that is polled either waits, or has finished, or has
    raised. *)
Inductive poll (R : Type) : Type :=
  | Suspended
  | Ready (r : R)
  | Failed (e : exn).

Arguments Suspended {R}.
Arguments Ready {R} r.
Arguments Failed {R} e.

(** What the event loop delivers to the agent while a round is open: the
    feedback of the upper market, or nothing but the passing of time. No
    statement of the file reads a clock or sets a timer. *)
Inductive event : Type :=
  | Tick
  | Feedback (accepted_orders : list loc).

Definition deliver (c : context) (e : event) : context :=
  match e with
  | Tick => c
  | Feedback accepted_orders => (handle_market_feedback accepted_orders c).1
  end.

Section Role.
(** [PayAsClearRole.clear_market] (not among the sources). *)
Context {R : Type} (super_clear_market : context → list product → R).

(** [PayAsClearIntermediateRole.clear_market]: the coroutine awaits the
    future and then clears. *)
Definition clear_market (c : context) (market_products : list product)
  : poll R :=
  match wait_events c !! "upper" with
  | None => Failed (KeyError "upper")
  | Some Pending => Suspended
  | Some (Done _) => Ready (super_clear_market c market_products)
  end.

(** The round of the lower tier after the given events. *)
Definition round (events : list event) (c : context)
    (market_products : list product) : poll R :=
  clear_market (foldl deliver (opening c) events) market_products.
End Role.

(** Volume read off an order dictionary, for the totals. *)
Definition volume_of (o : order) : Z :=
  match o !! "volume" with Some (VNum v) => v | _ => 0 end.

Definition residual_of (o : order) : Z :=
  match o !! "volume", o !! "accepted_volume" with
  | Some (VNum v), Some (VNum a) => v - a
  | _, _ => 0
  end.

Definition in_products (products : list product) (o : order) : bool :=
  match market_getter o with
  | Returns p => bool_decide (p ∈ products)
  | Raises _ => false
  end.

Definition is_intermediate (r : role) : bool :=
  match r with PayAsClearIntermediateRole _ => true | OtherRole => false end.

(** What the loop leaves behind for one order. *)
Definition countered (before after : loc → order) (a : loc) : Prop :=
  ∃ v, before a !! "accepted_volume" = Some (VNum v) ∧
       after a !! "volume" = Some (VNum (- v)) ∧
       after a !! "accepted_volume" = None ∧
       after a !! "accepted_price" = None.

(** An order with its key, and a group with its key, belong to one of
    the products. *)
Definition matching (products : list product) (kx : product * order) : Prop :=
  kx.1 ∈ products.

Definition matching_group (products : list product)
    (kg : product * list order) : Prop :=
  kg.1 ∈ products.

#[export] Instance matching_dec products kx : Decision (matching products kx).
Proof. unfold matching. apply _. Defined.

#[export] Instance matching_group_dec products kg :
  Decision (matching_group products kg).
Proof. unfold matching_group. apply _. Defined.

(** The parent's clearing as [formulate_bids] obtains it: the result of
    [clear] of the first intermediate role. *)
Fixpoint parent_clearing (roles : list role) (all_orders : list order)
    (products : list product) : option (list order * list order) :=
  match roles with
  | [] => None
  | PayAsClearIntermediateRole clear :: _ => Some (clear all_orders products)
  | OtherRole :: roles' => parent_clearing roles' all_orders products
  end.

(** Total absolute volume of an order book, and total absolute residual. *)
Definition total_volume (book : list order) : Z :=
  total (λ o, Z.abs (volume_of o)) book.

Definition total_residual (book : list order) : Z :=
  total (λ o, Z.abs (residual_of o)) book.

(** Conservation as the specification words it: everything rejected and
    every residual of the matching products goes upward. *)
Definition conservation_as_specified (roles : list role)
    (all_orders : list order) (products : list product) : Prop :=
  ∀ accepted rejected book,
    parent_clearing roles all_orders products = Some (accepted, rejected) →
    formulate_bids roles all_orders products = Returns book →
    total_volume book
    = total_volume (filter (λ o, in_products products o = true) rejected)
      + total_residual (filter (λ o, in_products products o = true) accepted).

(** Sample data: one product, an order of 10 of which 9 were accepted, an
    order of 10 of which 4 were accepted, and a rejected order of 7. *)
Definition hour1 : product := (VNum 0, VNum 1, VNone).

Definition mk_order (vol : Z) (accepted : option Z) : order :=
  let o : order :=
    {[ "start_time" := VNum 0; "end_time" := VNum 1; "only_hours" := VNone;
       "price" := VNum 20; "volume" := VNum vol ]} in
  match accepted with
  | Some a => <["accepted_volume" := VNum a]> (<["accepted_price" := VNum 20]> o)
  | None => o
  end.

Definition small_residual_roles : list role :=
  [ OtherRole;
    PayAsClearIntermediateRole (λ _ _, ([mk_order 10 (Some 9)], [])) ].

Definition mixed_roles : list role :=
  [ PayAsClearIntermediateRole
      (λ _ _, ([mk_order 10 (Some 9); mk_order 10 (Some 4)],
               [mk_order (-7) None])) ].

(** A context whose object 0 is an accepted order of the upper market. *)
Definition sample_context : context :=
  {| heap := λ a, if decide (a = 0%nat) then mk_order 10 (Some 6) else ∅;
     all_orders := [];
     wait_events := ∅ |}.

(** The timeout as the specification words it: with no signal of the
    parent within the deadline, the round fails with [UpstreamTimeout]. *)
Definition times_out {R} (super_clear_market : context → list product → R)
    (deadline : nat) (c : context) (market_products : list product) : Prop :=
  round super_clear_market (replicate deadline Tick) c market_products
  = Failed UpstreamTimeout.

End Intermediate.

(** ** battery_market_demo.py: what the walk leaves, and what follows it *)

Module Operator.
Import Py Demo.

Definition node_at (st : list order) (i : ref) : string :=
  match st !! i with Some o => node o | None => "" end.

(** A match pairs a supply order with a demand order of the order set: it
    names their nodes, is priced at the limit of the buyer, which is not
    below that of the seller, and moves a positive volume that neither
    order falls short of. *)
Definition pairs (all_orders : list order) (t : trade) : Prop :=
  ∃ i j,
    0 < vol all_orders i ∧ vol all_orders j < 0 ∧
    seller t = node_at all_orders i ∧ buyer t = node_at all_orders j ∧
    price_at all_orders i ≤ price_at all_orders j ∧
    trade_price t = price_at all_orders j ∧
    0 < trade_volume t ∧
    trade_volume t ≤ vol all_orders i ∧
    trade_volume t ≤ - vol all_orders j.

(** Prices do not rise from one match to the next. *)
Definition falling : relation trade :=
  λ t1 t2, trade_price t2 ≤ trade_price t1.

(** What the cursors stand for: the orders behind a cursor are used up,
    those ahead of it are as submitted. *)
Record cursors_inv (all_orders : list order) (s : locals) : Prop := {
  ci_supply_cursor :
    (supply_cursor s ≤ length (supply_of all_orders))%nat;
  ci_demand_cursor :
    (demand_cursor s ≤ length (demand_of all_orders))%nat;
  ci_supply_done : ∀ k i, supply_of all_orders !! k = Some i →
    (k < supply_cursor s)%nat → vol (orders s) i = 0;
  ci_demand_done : ∀ k i, demand_of all_orders !! k = Some i →
    (k < demand_cursor s)%nat → vol (orders s) i = 0;
  ci_supply_fresh : ∀ k i, supply_of all_orders !! k = Some i →
    (supply_cursor s < k)%nat → orders s !! i = all_orders !! i;
  ci_demand_fresh : ∀ k i, demand_of all_orders !! k = Some i →
    (demand_cursor s < k)%nat → orders s !! i = all_orders !! i;
  ci_pairs : Forall (pairs all_orders) (matched_orders s);
  ci_floor : ∀ t k j, t ∈ matched_orders s →
    demand_of all_orders !! k = Some j → (demand_cursor s ≤ k)%nat →
    price_at all_orders j ≤ trade_price t;
  ci_falling : StronglySorted falling (matched_orders s);
  ci_last : cur_price s = trade_price <$> last (matched_orders s);
  ci_count :
    (length (matched_orders s) ≤ supply_cursor s + demand_cursor s)%nat;
  ci_count_strict :
    matched_orders s = [] ∨
    (length (matched_orders s)
     < length (supply_of all_orders) + length (demand_of all_orders))%nat;
  ci_sold : ∀ a,
    total (accepted_volume all_orders (orders s))
          (filter (λ i, node_at all_orders i = a) (supply_of all_orders))
    = total trade_volume (filter (λ t, seller t = a) (matched_orders s));
  ci_bought : ∀ a,
    total (accepted_volume all_orders (orders s))
          (filter (λ i, node_at all_orders i = a) (demand_of all_orders))
    = - total trade_volume (filter (λ t, buyer t = a) (matched_orders s));
}.

(** An order is partly filled: some of it is accepted, some remains. *)
Definition partly_filled (before after : list order) (i : ref) : Prop :=
  vol after i ≠ 0 ∧ vol after i ≠ vol before i.

(** *** After the walk: the results for the agents *)

(** An entry of the list that [on_market_result] receives. *)
Record fill : Type := Fill {
  fill_volume : Z;
  fill_price : Z;
}.

(** [d.setdefault(k, []).append(x)] on a dictionary of lists; a Python
    dictionary keeps its keys in the order of their insertion. *)
Fixpoint setdefault_append (k : string) (x : fill)
    (d : list (string * list fill)) : list (string * list fill) :=
  match d with
  | [] => [(k, [x])]
  | (k', l) :: d' =>
      if decide (k' = k) then (k', l ++ [x]) :: d'
      else (k', l) :: setdefault_append k x d'
  end.

(** [d.get(k, [])] *)
Fixpoint get (d : list (string * list fill)) (k : string) : list fill :=
  match d with
  | [] => []
  | (k', l) :: d' => if decide (k' = k) then l else get d' k
  end.

(** A dictionary of [per_agent_results]: no key twice, and a key for just
    the agents with an entry. *)
Definition keyed_by_entries (d : list (string * list fill)) : Prop :=
  NoDup d.*1 ∧ ∀ a, a ∈ d.*1 ↔ get d a ≠ [].

(** The loop that fills [per_agent_results]. *)
Definition record_match (d : list (string * list fill)) (m : trade)
  : list (string * list fill) :=
  let d := setdefault_append (seller m)
             (Fill (- trade_volume m) (trade_price m)) d in
  setdefault_append (buyer m) (Fill (trade_volume m) (trade_price m)) d.

Definition per_agent_results (matched_orders : list trade)
  : list (string * list fill) :=
  foldl record_match [] matched_orders.

(** The sales and purchases of one agent, in the order of the matches. *)
Definition fills_of (agent : string) (matched_orders : list trade) : list fill :=
  m ← matched_orders;
  (if decide (seller m = agent)
   then [Fill (- trade_volume m) (trade_price m)] else []) ++
  (if decide (buyer m = agent)
   then [Fill (trade_volume m) (trade_price m)] else []).

(** [FeedbackUnitOperator.on_market_result]. The average price is the
    quotient of two sums; the model keeps numerator and denominator, the
    floating-point division itself being outside it. The quotient is
    computed first, so a division by zero leaves the histories and the
    CSV file as they were. *)
Inductive notified : Type :=
  | ZeroDivisionError
  | Logged (net_volume : Z) (avg_price : option (Z * Z))
           (printed : list (string * Z * Z)).

Definition direction (t : fill) : string :=
  if fill_volume t >? 0 then "bought" else "sold".

Definition on_market_result (trades : list fill) : notified :=
  let net_volume := total fill_volume trades in
  let printed :=
    (λ t, (direction t, Z.abs (fill_volume t), fill_price t)) <$> trades in
  match trades with
  | [] => Logged net_volume None printed
  | _ =>
      let num := total (λ t, fill_price t * Z.abs (fill_volume t)) trades in
      let den := total (λ t, Z.abs (fill_volume t)) trades in
      if den =? 0 then ZeroDivisionError
      else Logged net_volume (Some (num, den)) printed
  end.

(** *** After the walk: the state of charge of the battery *)

Record battery : Type := Battery {
  name : string;
  soc : Z;
  capacity_mwh : Z;
}.

Section Efficiency.
(** [volume * self.efficiency], a floating-point product. *)
Variable times_efficiency : Z → Z.

Definition delta_soc (battery_name : string) (matched_orders : list trade) : Z :=
  foldl (λ delta m,
           let delta :=
             if decide (seller m = battery_name)
             then delta - trade_volume m else delta in
           if decide (buyer m = battery_name)
           then delta + times_efficiency (trade_volume m) else delta)
        0 matched_orders.

(** The branch [if self.battery_unit:]. *)
Definition update_soc (battery_unit : option battery)
    (matched_orders : list trade) : option battery :=
  match battery_unit with
  | Some b =>
      Some {| name := name b;
              soc := Z.max 0 (Z.min (capacity_mwh b)
                                (soc b + delta_soc (name b) matched_orders));
              capacity_mwh := capacity_mwh b |}
  | None => None
  end.
End Efficiency.

(** *** [FixedDemandStrategy] *)

Record fixed_demand_strategy : Type := FixedDemandStrategy {
  demand_mw : Z;
  max_bid_price : Z;
}.

(** [FixedDemandStrategy.calculate_bids] for the unit of the given name. *)
Definition calculate_bids (self : fixed_demand_strategy) (unit_name : string)
    (product_tuples : list (Z * Z)) : list order :=
  (λ '(start, end_), {| start_time := start; end_time := end_;
                        price := max_bid_price self;
                        volume := - demand_mw self;
                        node := unit_name |}) <$> product_tuples.

End Operator.

(** ** intermediate.py: when the calls succeed, and what they send *)

Module Coupling.
Import Py Intermediate.

(** The object at [a] has a number under [accepted_volume]. *)
Definition numeric_accepted (h : loc → order) (a : loc) : Prop :=
  ∃ v, h a !! "accepted_volume" = Some (VNum v).

(** The keys that [handle_market_feedback] assigns to or removes. *)
Definition feedback_keys : list string :=
  [ "volume"; "accepted_volume"; "accepted_price" ].

(** The copy of an accepted order that [formulate_bids] sends upward. *)
Definition residual_copy (o : order) : order :=
  <["volume" := VNum (residual_of o)]> o.

(** An order has the three keys of its product, and an order has numbers
    under [volume] and [accepted_volume]. *)
Definition has_product (o : order) : Prop :=
  is_Some (o !! "start_time") ∧ is_Some (o !! "end_time") ∧
  is_Some (o !! "only_hours").

Definition has_volumes (o : order) : Prop :=
  ∃ v a, o !! "volume" = Some (VNum v) ∧
         o !! "accepted_volume" = Some (VNum a).

(** Objects 0 and 1 are accepted orders of the upper market; the other
    objects lack [accepted_volume]. *)
Definition two_orders_context : context :=
  {| heap := λ a, if decide (a = 0%nat) then mk_order 10 (Some 6)
                  else if decide (a = 1%nat) then mk_order (-5) (Some (-5))
                  else mk_order 3 None;
     all_orders := [];
     wait_events := {[ "upper" := Pending ]} |}.

End Coupling.

(** ** world_script_fuel_market_dmas.py: the window of [calculate_reward] *)

Module FuelScript.
Import Py Intermediate.

(** [order[k]] where the code compares it with a time of the index: a
    time is a number of instants; anything else does not compare with a
    time. *)
Definition time_of (o : order) (k : string) : outcome Z :=
  v ← getitem o k;
  match v with
  | VNum t => Returns t
  | _ => Raises TypeError
  end.

(** The loop of [UpdateForecastBidStrategy.calculate_reward] over the
    order book. *)
Fixpoint window_loop (orderbook : list order) (min_start max_end : Z)
  : outcome (Z * Z) :=
  match orderbook with
  | [] => Returns (min_start, max_end)
  | order :: orderbook' =>
      s ← time_of order "start_time";
      let min_start := if s <? min_start then s else min_start in
      e ← time_of order "end_time";
      let max_end := if e >? max_end then e else max_end in
      window_loop orderbook' min_start max_end
  end.

(** The bounds [min_start] and [max_end] of the slice that
    [calculate_reward] assigns to, from [unit.index[0]], [unit.index[-1]]
    and [unit.index.freq]. The look-up of the accepted prices before the
    loop and the assignment to the slice after it are on objects of
    classes that are not among the sources. *)
Definition reward_window (index_first index_last freq : Z)
    (orderbook : list order) : outcome (Z * Z) :=
  '(min_start, max_end) ← window_loop orderbook index_last index_first;
  Returns (min_start, max_end - freq).

Definition timed_order (s e : Z) : order :=
  {[ "start_time" := VNum s; "end_time" := VNum e ]}.

End FuelScript.

(** * Properties *)

(** ** Sums and sorting *)

Module PyFacts.
Import Py.

Section Total.
Context {A : Type}.
Implicit Types (f g : A → Z) (l : list A).

Lemma total_app f l1 l2 : total f (l1 ++ l2) = total f l1 + total f l2.
Proof. induction l1 as [|x l1 IH]; simpl; [done | rewrite IH; lia]. Qed.

Lemma total_ext f g l : (∀ x, x ∈ l → f x = g x) → total f l = total g l.
Proof.
  induction l as [|x l IH]; intros H; simpl; [done|].
  rewrite (H x), IH; [done | | ]; intros; try apply H; set_solver.
Qed.

Lemma total_perm f l1 l2 : l1 ≡ₚ l2 → total f l1 = total f l2.
Proof. induction 1; simpl; lia. Qed.

Lemma total_opp f l : total (λ x, - f x) l = - total f l.
Proof. induction l as [|x l IH]; simpl; lia. Qed.

(** Changing the summand at one element of a duplicate-free list. *)
Lemma total_update f g l i :
  NoDup l → i ∈ l → (∀ x, x ∈ l → x ≠ i → g x = f x) →
  total g l = total f l + (g i - f i).
Proof.
  induction l as [|x l IH]; intros Hnd Hi Hext; [set_solver|].
  apply NoDup_cons in Hnd as [Hx Hnd]. simpl.
  apply elem_of_cons in Hi as [->|Hi].
  - rewrite (total_ext g f l); [lia|].
    intros y Hy. apply Hext; [set_solver|]. intros ->. done.
  - rewrite IH; [|done|done|intros; apply Hext; set_solver].
    rewrite (Hext x); [lia|set_solver|]. intros ->. done.
Qed.

Lemma total_frame f g l i :
  i ∉ l → (∀ x, x ≠ i → g x = f x) → total g l = total f l.
Proof.
  intros Hi Hext. apply total_ext. intros x Hx. apply Hext.
  intros ->. done.
Qed.
End Total.

Section Sorted.
Context {A : Type} (key : A → Z).
Implicit Types (l : list A) (x y : A).

Lemma insert_by_perm x l : insert_by key x l ≡ₚ x :: l.
Proof.
  induction l as [|y l IH]; simpl; [done|].
  destruct (key x <=? key y); [done|].
  rewrite IH. apply Permutation_swap.
Qed.

Lemma sorted_perm l : sorted key l ≡ₚ l.
Proof.
  induction l as [|x l IH]; simpl; [done|].
  unfold sorted in *. simpl. rewrite insert_by_perm. by rewrite IH.
Qed.

Lemma merit_key before x y : merit key before x y → key x ≤ key y.
Proof. intros [?|[? _]]; lia. Qed.

Lemma insert_by_merit before x l :
  Forall (before x) l →
  StronglySorted (merit key before) l →
  StronglySorted (merit key before) (insert_by key x l).
Proof.
  induction l as [|y l IH]; intros Hx Hs; simpl.
  { repeat constructor. }
  apply Forall_cons in Hx as [Hxy Hx].
  apply StronglySorted_inv in Hs as [Hs Hy].
  destruct (key x <=? key y) eqn:E.
  - apply Z.leb_le in E. constructor; [by constructor|].
    constructor.
    + destruct (decide (key x = key y)); [by right | left; lia].
    + rewrite Forall_forall in Hy, Hx |- *. intros z Hz.
      specialize (Hy z Hz). specialize (Hx z Hz).
      apply merit_key in Hy.
      destruct (decide (key x = key z)); [by right | left; lia].
  - apply Z.leb_gt in E. constructor; [by apply IH|].
    rewrite insert_by_perm. constructor; [left; lia | done].
Qed.

(** Stability: a list in submission order ([before]) is sorted by key
    with submission order deciding between equal keys. *)
Lemma sorted_merit before l :
  StronglySorted before l → StronglySorted (merit key before) (sorted key l).
Proof.
  induction l as [|x l IH]; intros Hs; [constructor|].
  apply StronglySorted_inv in Hs as [Hs Hx].
  change (sorted key (x :: l)) with (insert_by key x (sorted key l)).
  apply insert_by_merit; [|by apply IH].
  by rewrite sorted_perm.
Qed.
End Sorted.

End PyFacts.

(** ** The matching walk *)

Module DemoFacts.
Import Py Demo PyFacts.

Implicit Types (st : list order) (i j k : nat) (o : order).

Lemma vol_lookup st i o : st !! i = Some o → vol st i = volume o.
Proof. unfold vol. by intros ->. Qed.

Lemma price_at_lookup st i o : st !! i = Some o → price_at st i = price o.
Proof. unfold price_at. by intros ->. Qed.

Lemma vol_lt_length st i : vol st i ≠ 0 → (i < length st)%nat.
Proof.
  unfold vol. destruct (st !! i) eqn:E; [|done].
  intros _. by eapply lookup_lt_Some.
Qed.

Lemma vol_insert_eq st i o : (i < length st)%nat → vol (<[i:=o]> st) i = volume o.
Proof. intros H. unfold vol. by rewrite list_lookup_insert_eq. Qed.

Lemma vol_insert_ne st i j o : i ≠ j → vol (<[i:=o]> st) j = vol st j.
Proof. intros H. unfold vol. by rewrite list_lookup_insert_ne. Qed.

Lemma elem_of_supply_orders st i : i ∈ supply_orders st ↔ 0 < vol st i.
Proof.
  unfold supply_orders. rewrite list_elem_of_filter, elem_of_seq.
  split; [tauto|]. intros H. split; [done|].
  pose proof (vol_lt_length st i). lia.
Qed.

Lemma elem_of_demand_orders st i : i ∈ demand_orders st ↔ vol st i < 0.
Proof.
  unfold demand_orders. rewrite list_elem_of_filter, elem_of_seq.
  split; [tauto|]. intros H. split; [done|].
  pose proof (vol_lt_length st i). lia.
Qed.

Lemma supply_of_perm st : supply_of st ≡ₚ supply_orders st.
Proof. apply sorted_perm. Qed.

Lemma demand_of_perm st : demand_of st ≡ₚ demand_orders st.
Proof. apply sorted_perm. Qed.

Lemma elem_of_supply_of st i : i ∈ supply_of st ↔ 0 < vol st i.
Proof. by rewrite supply_of_perm, elem_of_supply_orders. Qed.

Lemma elem_of_demand_of st i : i ∈ demand_of st ↔ vol st i < 0.
Proof. by rewrite demand_of_perm, elem_of_demand_orders. Qed.

Lemma NoDup_supply_of st : NoDup (supply_of st).
Proof.
  rewrite supply_of_perm. apply NoDup_filter, NoDup_seq.
Qed.

Lemma NoDup_demand_of st : NoDup (demand_of st).
Proof.
  rewrite demand_of_perm. apply NoDup_filter, NoDup_seq.
Qed.

Lemma StronglySorted_seq a n : StronglySorted lt (seq a n).
Proof.
  revert a. induction n as [|n IH]; intros a; simpl; constructor; [done|].
  apply Forall_forall. intros x Hx%elem_of_seq. lia.
Qed.

Lemma StronglySorted_filter {A} (R : relation A) (P : A → Prop)
    `{!∀ x, Decision (P x)} (l : list A) :
  StronglySorted R l → StronglySorted R (filter P l).
Proof.
  induction 1 as [|x l Hs IH Hx]; [constructor|].
  rewrite filter_cons. destruct (decide (P x)); [|done].
  constructor; [done|]. rewrite Forall_forall in Hx |- *.
  intros y [_ Hy]%list_elem_of_filter. by apply Hx.
Qed.

(** What one round of the loop does when the two references differ. *)
Lemma loop_body_Some supply demand (s : locals) s' :
  loop_body supply demand s = Some s' →
  ∃ si di so do,
    supply !! supply_cursor s = Some si ∧
    demand !! demand_cursor s = Some di ∧
    orders s !! si = Some so ∧
    orders s !! di = Some do ∧
    price so ≤ price do ∧
    cur_price s' = Some (Z.max (price so) (price do)) ∧
    matched_orders s' = matched_orders s ++
      [ Trade (node so) (node do) (Z.min (volume so) (- volume do))
              (Z.max (price so) (price do)) ] ∧
    (si ≠ di →
     let traded := Z.min (volume so) (- volume do) in
     orders s' = <[di := set_volume do (volume do + traded)]>
                   (<[si := set_volume so (volume so - traded)]> (orders s)) ∧
     supply_cursor s' =
       (if volume so - traded <=? 0 then S (supply_cursor s)
        else supply_cursor s) ∧
     demand_cursor s' =
       (if volume do + traded >=? 0 then S (demand_cursor s)
        else demand_cursor s)).
Proof.
  unfold loop_body. intros H.
  destruct (supply !! supply_cursor s) as [si|] eqn:Es; [|done].
  destruct (demand !! demand_cursor s) as [di|] eqn:Ed; [|done].
  simpl in H.
  destruct (orders s !! si) as [so|] eqn:Eso; [|done].
  destruct (orders s !! di) as [do|] eqn:Edo; [|done].
  simpl in H.
  destruct (price do >=? price so) eqn:Ep; [|done].
  apply Z.geb_le in Ep.
  pose proof (lookup_lt_Some _ _ _ Eso) as Hsi.
  pose proof (lookup_lt_Some _ _ _ Edo) as Hdi.
  exists si, di, so, do.
  destruct (decide (si = di)) as [->|Hne].
  - rewrite list_lookup_insert_eq in H by done. simpl in H.
    rewrite list_lookup_insert_eq in H by (by rewrite length_insert).
    simpl in H. injection H as <-. simpl. do 7 (split; [done|]).
    intros Hne. by destruct Hne.
  - rewrite list_lookup_insert_ne in H by done. rewrite Edo in H.
    simpl in H.
    rewrite (list_lookup_insert_ne _ di si) in H by congruence.
    rewrite !list_lookup_insert_eq in H by (by rewrite ?length_insert).
    simpl in H. injection H as <-. simpl. do 7 (split; [done|]). done.
Qed.

Lemma set_volume_set_volume o v w : set_volume (set_volume o v) w = set_volume o w.
Proof. done. Qed.

(** *** The invariant of the walk *)

Section Walk.
Variable all_orders : list order.

Lemma inv_initial : inv all_orders (initial all_orders).
Proof.
  split; simpl; try done.
  - intros i o0 H. exists (volume o0). rewrite H. by destruct o0.
  - intros; lia.
  - intros; lia.
  - intros k i H _. apply elem_of_supply_of. by eapply list_elem_of_lookup_2.
  - intros k i H _. apply elem_of_demand_of. by eapply list_elem_of_lookup_2.
  - rewrite (total_ext _ (λ _, 0)); [by induction (supply_of _)|].
    intros; unfold accepted_volume; lia.
  - rewrite (total_ext _ (λ _, 0)); [by induction (demand_of _)|].
    intros; unfold accepted_volume; lia.
Qed.

Lemma inv_price_at s i o :
  inv all_orders s → orders s !! i = Some o → price_at all_orders i = price o.
Proof.
  intros Hinv Ho. unfold price_at.
  destruct (all_orders !! i) as [o0|] eqn:E.
  - destruct (inv_same all_orders s Hinv i o0 E) as [v Hv].
    rewrite Ho in Hv. by injection Hv as ->.
  - apply lookup_lt_Some in Ho. apply lookup_ge_None in E.
    rewrite (inv_length all_orders s Hinv) in Ho. lia.
Qed.

(** One round of the loop under the invariant. *)
Lemma loop_body_inv s s' :
  inv all_orders s → loop_body (supply_of all_orders) (demand_of all_orders) s = Some s' →
  ∃ si di so do traded,
    supply_of all_orders !! supply_cursor s = Some si ∧
    demand_of all_orders !! demand_cursor s = Some di ∧
    orders s !! si = Some so ∧ orders s !! di = Some do ∧
    0 < vol all_orders si ∧ vol all_orders di < 0 ∧ si ≠ di ∧
    traded = Z.min (volume so) (- volume do) ∧
    0 < traded ∧
    price so ≤ price do ∧
    cur_price s' = Some (Z.max (price so) (price do)) ∧
    matched_orders s' = matched_orders s ++
      [ Trade (node so) (node do) traded (Z.max (price so) (price do)) ] ∧
    orders s' = <[di := set_volume do (volume do + traded)]>
                  (<[si := set_volume so (volume so - traded)]> (orders s)) ∧
    supply_cursor s' =
      (if volume so - traded <=? 0 then S (supply_cursor s)
       else supply_cursor s) ∧
    demand_cursor s' =
      (if volume do + traded >=? 0 then S (demand_cursor s)
       else demand_cursor s).
Proof.
  intros Hinv H.
  apply loop_body_Some in H
    as (si & di & so & do & Hs & Hd & Hso & Hdo & Hp & Hcp & Hm & Hrest).
  pose proof (inv_supply_live all_orders s Hinv _ _ Hs (le_n _)) as Hsv.
  pose proof (inv_demand_live all_orders s Hinv _ _ Hd (le_n _)) as Hdv.
  rewrite (vol_lookup _ _ _ Hso) in Hsv.
  rewrite (vol_lookup _ _ _ Hdo) in Hdv.
  assert (0 < vol all_orders si) as Hsi
    by (apply elem_of_supply_of; by eapply list_elem_of_lookup_2).
  assert (vol all_orders di < 0) as Hdi
    by (apply elem_of_demand_of; by eapply list_elem_of_lookup_2).
  assert (si ≠ di) as Hne by (intros ->; lia).
  destruct (Hrest Hne) as (Ho & Hsc & Hdc).
  exists si, di, so, do, (Z.min (volume so) (- volume do)).
  split_and!; try done. lia.
Qed.

Lemma inv_step s s' :
  inv all_orders s → loop_body (supply_of all_orders) (demand_of all_orders) s = Some s' →
  inv all_orders s'.
Proof.
  intros Hinv H.
  destruct (loop_body_inv s s' Hinv H)
    as (si & di & so & do & traded & Hs & Hd & Hso & Hdo & Hsi & Hdi & Hne
        & Htr & Hpos & Hp & Hcp & Hm & Ho & Hsc & Hdc).
  pose proof (lookup_lt_Some _ _ _ Hso) as Hlsi.
  pose proof (lookup_lt_Some _ _ _ Hdo) as Hldi.
  pose proof (vol_lookup _ _ _ Hso) as Hvs.
  pose proof (vol_lookup _ _ _ Hdo) as Hvd.
  pose proof (inv_supply all_orders s Hinv si Hsi) as Hrs.
  pose proof (inv_demand all_orders s Hinv di Hdi) as Hrd.
  assert (vol (orders s') si = volume so - traded) as Hvs'.
  { rewrite Ho, vol_insert_ne, vol_insert_eq by done. done. }
  assert (vol (orders s') di = volume do + traded) as Hvd'.
  { rewrite Ho, vol_insert_eq by (by rewrite length_insert). done. }
  assert (∀ i, i ≠ si → i ≠ di → orders s' !! i = orders s !! i) as Hother.
  { intros i ??. rewrite Ho, !list_lookup_insert_ne by done. done. }
  assert (∀ i, i ≠ si → i ≠ di → vol (orders s') i = vol (orders s) i)
    as Hvother.
  { intros i ??. unfold vol. by rewrite Hother. }
  split.
  - intros i o0 Hi.
    destruct (inv_same all_orders s Hinv i o0 Hi) as [v Hv].
    destruct (decide (i = di)) as [->|Hidi].
    { rewrite Hdo in Hv. injection Hv as ->. eexists.
      rewrite Ho, list_lookup_insert_eq by (by rewrite length_insert).
      by rewrite set_volume_set_volume. }
    destruct (decide (i = si)) as [->|Hisi].
    { rewrite Hso in Hv. injection Hv as ->. eexists.
      rewrite Ho, list_lookup_insert_ne, list_lookup_insert_eq by done.
      by rewrite set_volume_set_volume. }
    exists v. by rewrite Hother.
  - rewrite Ho, !length_insert. apply (inv_length all_orders s Hinv).
  - intros i Hi. rewrite Hother by (intros ->; lia).
    by apply (inv_zero all_orders s Hinv).
  - intros i Hi. destruct (decide (i = si)) as [->|Hisi]; [lia|].
    rewrite Hvother; [by apply (inv_supply all_orders s Hinv)|done|intros ->; lia].
  - intros i Hi. destruct (decide (i = di)) as [->|Hidi]; [lia|].
    rewrite Hvother; [by apply (inv_demand all_orders s Hinv)|intros ->; lia|done].
  - intros k i Hk Hle.
    assert (0 < vol all_orders i) as Hvi
      by (apply elem_of_supply_of; by eapply list_elem_of_lookup_2).
    destruct (decide (i = si)) as [->|Hisi].
    + pose proof (NoDup_lookup _ _ _ _ (NoDup_supply_of all_orders) Hk Hs).
      subst k. rewrite Hvs'. rewrite Hsc in Hle.
      destruct (Z.leb_spec (volume so - traded) 0); lia.
    + rewrite Hvother; [|done|intros ->; lia].
      apply (inv_supply_live all_orders s Hinv k i Hk).
      rewrite Hsc in Hle. destruct (volume so - traded <=? 0); lia.
  - intros k i Hk Hle.
    assert (vol all_orders i < 0) as Hvi
      by (apply elem_of_demand_of; by eapply list_elem_of_lookup_2).
    destruct (decide (i = di)) as [->|Hidi].
    + pose proof (NoDup_lookup _ _ _ _ (NoDup_demand_of all_orders) Hk Hd).
      subst k. rewrite Hvd'. rewrite Hdc in Hle.
      destruct (Z.geb_spec (volume do + traded) 0); lia.
    + rewrite Hvother; [|intros ->; lia|done].
      apply (inv_demand_live all_orders s Hinv k i Hk).
      rewrite Hdc in Hle. destruct (volume do + traded >=? 0); lia.
  - rewrite Hm, total_app. simpl.
    rewrite (total_update (accepted_volume all_orders (orders s)) _ _ si).
    + rewrite (inv_supply_total all_orders s Hinv). unfold accepted_volume. lia.
    + apply NoDup_supply_of.
    + by eapply list_elem_of_lookup_2.
    + intros x Hx%elem_of_supply_of Hxs. unfold accepted_volume.
      rewrite Hvother; [done|done|intros ->; lia].
  - rewrite Hm, total_app. simpl.
    rewrite (total_update (accepted_volume all_orders (orders s)) _ _ di).
    + rewrite (inv_demand_total all_orders s Hinv). unfold accepted_volume. lia.
    + apply NoDup_demand_of.
    + by eapply list_elem_of_lookup_2.
    + intros x Hx%elem_of_demand_of Hxs. unfold accepted_volume.
      rewrite Hvother; [done|intros ->; lia|done].
  - rewrite Hcp, Hm. split; [by destruct (matched_orders s)|].
    exists si, di. unfold accepted_volume.
    rewrite (inv_price_at s si so Hinv Hso), (inv_price_at s di do Hinv Hdo).
    lia.
Qed.

(** The loop ends within the fuel given, in a state that satisfies the
    invariant and at which the loop is left. *)
Lemma loop_body_remaining s s' :
  inv all_orders s → loop_body (supply_of all_orders) (demand_of all_orders) s = Some s' →
  (remaining all_orders s' < remaining all_orders s)%nat.
Proof.
  intros Hinv H.
  destruct (loop_body_inv s s' Hinv H)
    as (si & di & so & do & traded & Hs & Hd & Hso & Hdo & Hsi & Hdi & Hne
        & Htr & Hpos & Hp & Hcp & Hm & Ho & Hsc & Hdc).
  apply lookup_lt_Some in Hs, Hd. unfold remaining. rewrite Hsc, Hdc.
  destruct (Z.leb_spec (volume so - traded) 0),
           (Z.geb_spec (volume do + traded) 0); lia.
Qed.

Lemma while_loop_inv fuel s :
  inv all_orders s → (remaining all_orders s < fuel)%nat →
  ∃ s', while_loop fuel (supply_of all_orders) (demand_of all_orders) s
          = Some s'
        ∧ inv all_orders s'
        ∧ loop_body (supply_of all_orders) (demand_of all_orders) s' = None.
Proof.
  revert s. induction fuel as [|fuel IH]; intros s Hinv Hfuel; [lia|].
  simpl.
  destruct (loop_body _ _ s) as [s1|] eqn:E.
  - apply IH; [by eapply inv_step|].
    pose proof (loop_body_remaining s s1 Hinv E). lia.
  - by exists s.
Qed.

(** The loop is left only at the end of one of the two lists or at the
    [break]: the look-ups in the store never fail. *)
Lemma loop_body_None s :
  inv all_orders s →
  loop_body (supply_of all_orders) (demand_of all_orders) s = None →
  supply_of all_orders !! supply_cursor s = None ∨
  demand_of all_orders !! demand_cursor s = None ∨
  ∃ si di,
    supply_of all_orders !! supply_cursor s = Some si ∧
    demand_of all_orders !! demand_cursor s = Some di ∧
    price_at all_orders di < price_at all_orders si.
Proof.
  intros Hinv. unfold loop_body.
  destruct (supply_of all_orders !! supply_cursor s) as [si|] eqn:Es;
    [|by left].
  destruct (demand_of all_orders !! demand_cursor s) as [di|] eqn:Ed;
    [|by right; left].
  simpl. intros H. right; right. exists si, di. split_and!; try done.
  assert (si < length (orders s))%nat as Hsi.
  { rewrite (inv_length _ _ Hinv). apply vol_lt_length.
    apply list_elem_of_lookup_2, elem_of_supply_of in Es. lia. }
  assert (di < length (orders s))%nat as Hdi.
  { rewrite (inv_length _ _ Hinv). apply vol_lt_length.
    apply list_elem_of_lookup_2, elem_of_demand_of in Ed. lia. }
  destruct (lookup_lt_is_Some_2 _ _ Hsi) as [so Hso].
  destruct (lookup_lt_is_Some_2 _ _ Hdi) as [do Hdo].
  rewrite Hso, Hdo in H. simpl in H.
  rewrite (inv_price_at s si so Hinv Hso), (inv_price_at s di do Hinv Hdo).
  destruct (Z.geb_spec (price do) (price so)) as [Hge|Hlt]; [|done].
  exfalso. revert H.
  set (st1 := <[si:=_]> (orders s)).
  assert (di < length st1)%nat as Hd1 by (unfold st1; by rewrite length_insert).
  destruct (lookup_lt_is_Some_2 _ _ Hd1) as [d1 ->]. simpl.
  set (st2 := <[di:=_]> st1).
  assert (si < length st2)%nat as Hs2
    by (unfold st2, st1; by rewrite !length_insert).
  assert (di < length st2)%nat as Hd2
    by (unfold st2, st1; by rewrite !length_insert).
  destruct (lookup_lt_is_Some_2 _ _ Hs2) as [s2 ->].
  destruct (lookup_lt_is_Some_2 _ _ Hd2) as [d2 ->]. done.
Qed.

End Walk.

(** *** Results about [clear_market] *)

Lemma clear_market_inv books :
  let all_orders := concat books in
  ∃ s, clear_market books
         = Some (Result (cur_price s) (matched_orders s), orders s)
       ∧ inv all_orders s
       ∧ loop_body (supply_of all_orders) (demand_of all_orders) s = None.
Proof.
  intros all_orders. unfold clear_market. fold all_orders.
  destruct (while_loop_inv all_orders
              (S (length (supply_of all_orders) + length (demand_of all_orders)))
              (initial all_orders)) as (s & Hs & Hinv & Hend).
  - apply inv_initial.
  - unfold remaining. simpl. lia.
  - exists s. by rewrite Hs.
Qed.

Lemma while_loop_fuel supply demand fuel1 fuel2 s s1 s2 :
  while_loop fuel1 supply demand s = Some s1 →
  while_loop fuel2 supply demand s = Some s2 → s1 = s2.
Proof.
  revert fuel2 s. induction fuel1 as [|fuel1 IH]; intros fuel2 s; [done|].
  destruct fuel2 as [|fuel2]; [done|]. simpl.
  destruct (loop_body supply demand s) as [s'|]; [apply IH | congruence].
Qed.

Lemma lowest_le l x : x ∈ l → ∃ m, lowest l = Some m ∧ m ≤ x.
Proof.
  induction l as [|y l IH]; intros Hx; [set_solver|].
  simpl. apply elem_of_cons in Hx as [->|Hx].
  - destruct (lowest l); eexists; split; try done; lia.
  - destruct (IH Hx) as (m & -> & Hm). eexists; split; [done|lia].
Qed.

Lemma highest_ge l x : x ∈ l → ∃ m, highest l = Some m ∧ x ≤ m.
Proof.
  induction l as [|y l IH]; intros Hx; [set_solver|].
  simpl. apply elem_of_cons in Hx as [->|Hx].
  - destruct (highest l); eexists; split; try done; lia.
  - destruct (IH Hx) as (m & -> & Hm). eexists; split; [done|lia].
Qed.

(** C1 (as worded): the second match of the fixture is not at price 30,
    and the clearing price is not 30. *)
Lemma fixture_not_as_specified : ¬ fixture_as_specified.
Proof. intros [after H]. vm_compute in H. discriminate H. Qed.

(** C1 (amended): on the fixture, [clear_market] matches 50 units between
    the supply order at 10 and the demand order at 40, at price 40, then 10
    units between the supply order at 30 and the remaining 10 units of the
    demand order at 40, again at price 40 = max(30, 40); the clearing price
    is 40. The supply order at 30 keeps 40 units and the demand order at 5
    is untouched. *)
Theorem fixture_walk :
  clear_market fixture = Some (fixture_result, fixture_after).
Proof. vm_compute. reflexivity. Qed.

(** The walk assigns to the orders themselves: a second run on the order
    objects of the fixture sees the remaining volumes and matches nothing. *)
Example fixture_second_run :
  clear_market [fixture_after] = Some (Result None [], fixture_after).
Proof. vm_compute. reflexivity. Qed.

(** C4: for every order set, [clear_market] returns, and the accepted
    volume summed over the supply orders is the negated sum over the demand
    orders; both are the total volume of the matches. *)
Theorem volume_balance books :
  let before := concat books in
  ∃ r after,
    clear_market books = Some (r, after) ∧
    total (accepted_volume before after) (supply_orders before)
    = - total (accepted_volume before after) (demand_orders before) ∧
    total (accepted_volume before after) (supply_orders before)
    = total trade_volume (matches r).
Proof.
  intros before.
  destruct (clear_market_inv books) as (s & Hs & Hinv & _).
  eexists _, _. split; [exact Hs|]. fold before in Hinv.
  rewrite <- (total_perm _ _ _ (supply_of_perm before)).
  rewrite <- (total_perm _ _ _ (demand_of_perm before)).
  rewrite (inv_supply_total _ _ Hinv), (inv_demand_total _ _ Hinv).
  simpl. split; [lia|done].
Qed.

(** C5: when at least one pair is matched, the clearing price lies between
    the lowest price of a supply order with non-zero accepted volume and
    the highest price of a demand order with non-zero accepted volume. *)
Theorem clearing_price_bounds books r after :
  clear_market books = Some (r, after) →
  matches r ≠ [] →
  let before := concat books in
  ∃ p lo hi,
    clearing_price r = Some p ∧
    lowest (accepted_supply_prices before after) = Some lo ∧
    highest (accepted_demand_prices before after) = Some hi ∧
    lo ≤ p ≤ hi.
Proof.
  intros Hrun Hm before.
  destruct (clear_market_inv books) as (s & Hs & Hinv & _).
  rewrite Hs in Hrun. injection Hrun as <- <-. simpl in Hm |- *.
  fold before in Hinv. pose proof (inv_price _ _ Hinv) as Hp.
  destruct (cur_price s) as [p|]; [|done].
  destruct Hp as (_ & i & j & Hi & Hj & Hai & Haj & Hle).
  destruct (lowest_le (accepted_supply_prices before (orders s))
              (price_at before i)) as (lo & Hlo & ?).
  { unfold accepted_supply_prices. apply list_elem_of_fmap.
    exists i. split; [done|]. apply list_elem_of_filter.
    split; [done|]. by apply elem_of_supply_orders. }
  destruct (highest_ge (accepted_demand_prices before (orders s))
              (price_at before j)) as (hi & Hhi & ?).
  { unfold accepted_demand_prices. apply list_elem_of_fmap.
    exists j. split; [done|]. apply list_elem_of_filter.
    split; [done|]. by apply elem_of_demand_orders. }
  exists p, lo, hi. split_and!; try done; lia.
Qed.

Lemma clearing_price_bounds_fixture :
  ∃ p lo hi,
    clearing_price fixture_result = Some p ∧
    lowest (accepted_supply_prices (concat fixture) fixture_after) = Some lo ∧
    highest (accepted_demand_prices (concat fixture) fixture_after) = Some hi ∧
    lo ≤ p ≤ hi.
Proof.
  apply (clearing_price_bounds fixture fixture_result fixture_after).
  - vm_compute. reflexivity.
  - simpl. discriminate.
Defined.

Lemma loop_body_no_pair st :
  no_feasible_pair st →
  loop_body (supply_of st) (demand_of st) (initial st) = None.
Proof.
  intros H. unfold loop_body. simpl.
  destruct (supply_of st !! 0%nat) as [si|] eqn:Es; [|done].
  destruct (demand_of st !! 0%nat) as [di|] eqn:Ed; [|done]. simpl.
  destruct (st !! si) as [so|] eqn:Eso; [|done].
  destruct (st !! di) as [do|] eqn:Edo; [|done]. simpl.
  apply list_elem_of_lookup_2 in Es, Ed.
  rewrite supply_of_perm in Es. rewrite demand_of_perm in Ed.
  unfold no_feasible_pair in H. rewrite Forall_forall in H.
  specialize (H si Es). rewrite Forall_forall in H. specialize (H di Ed).
  rewrite (price_at_lookup _ _ _ Eso), (price_at_lookup _ _ _ Edo) in H.
  destruct (Z.geb_spec (price do) (price so)); [lia|done].
Qed.

Lemma clear_market_no_pair books :
  no_feasible_pair (concat books) →
  clear_market books = Some (Result None [], concat books).
Proof.
  intros H. unfold clear_market. simpl.
  by rewrite (loop_body_no_pair _ H).
Qed.

(** C6: when no supply order and demand order are price-compatible, in
    particular when there is no supply or no demand, [clear_market] returns
    no clearing price and no match, no order has accepted volume, the order
    set is left as it was, and a second run on it gives the same. *)
Theorem no_clear_idempotent books :
  let before := concat books in
  (supply_orders before = [] ∨ demand_orders before = [] →
   no_feasible_pair before) ∧
  (no_feasible_pair before →
   ∃ r after,
     clear_market books = Some (r, after) ∧
     clearing_price r = None ∧ matches r = [] ∧
     (∀ i, accepted_volume before after i = 0) ∧
     after = before ∧
     ∀ books', concat books' = after → clear_market books' = Some (r, after)).
Proof.
  intros before. split.
  - unfold no_feasible_pair. intros [-> | ->]; [constructor|].
    apply Forall_forall. intros; constructor.
  - intros H. exists (Result None []), before.
    split_and!; try done.
    + by apply clear_market_no_pair.
    + intros i. unfold accepted_volume. lia.
    + intros books' Hb. rewrite <- Hb in H |- *.
      by apply clear_market_no_pair.
Qed.

Lemma no_clear_idempotent_witness :
  no_feasible_pair (concat no_clear_book) ∧
  ∃ r after,
    clear_market no_clear_book = Some (r, after) ∧
    clearing_price r = None ∧ matches r = [] ∧
    (∀ i, accepted_volume (concat no_clear_book) after i = 0) ∧
    after = concat no_clear_book ∧
    ∀ books', concat books' = after → clear_market books' = Some (r, after).
Proof.
  assert (no_feasible_pair (concat no_clear_book)) as H
    by (vm_compute; repeat constructor).
  split; [exact H|].
  exact (proj2 (no_clear_idempotent no_clear_book) H).
Defined.

(** C7: the supply list is the supply orders sorted by ascending price and
    the demand list the demand orders sorted by descending price, orders of
    equal price staying in submission order; the result of [clear_market]
    is determined by the orders and the order of their submission: it is
    the same however the orders are spread over the received order books,
    and every completed run of the loop ends in the returned state. *)
Theorem clear_market_deterministic books :
  let all_orders := concat books in
  supply_of all_orders ≡ₚ supply_orders all_orders ∧
  StronglySorted (merit (λ i, price_at all_orders i) lt) (supply_of all_orders) ∧
  demand_of all_orders ≡ₚ demand_orders all_orders ∧
  StronglySorted (merit (λ i, - price_at all_orders i) lt) (demand_of all_orders) ∧
  (∀ books', concat books' = all_orders →
     clear_market books' = clear_market books) ∧
  (∀ fuel s,
     while_loop fuel (supply_of all_orders) (demand_of all_orders)
       (initial all_orders) = Some s →
     clear_market books
       = Some (Result (cur_price s) (matched_orders s), orders s)).
Proof.
  intros all_orders. split_and!.
  - apply supply_of_perm.
  - apply sorted_merit, StronglySorted_filter, StronglySorted_seq.
  - apply demand_of_perm.
  - apply sorted_merit, StronglySorted_filter, StronglySorted_seq.
  - intros books' Hb. unfold clear_market. by rewrite Hb.
  - intros fuel s Hs. unfold clear_market. fold all_orders.
    destruct (while_loop_inv all_orders
                (S (length (supply_of all_orders)
                    + length (demand_of all_orders)))
                (initial all_orders)) as (s' & Hs' & _).
    + apply inv_initial.
    + unfold remaining. simpl. lia.
    + rewrite Hs'. simpl.
      by rewrite (while_loop_fuel _ _ _ _ _ _ _ Hs Hs').
Qed.

(** C8 (as worded): an order of zero volume does not make the call fail
    with [InvalidOrder]; the call returns. *)
Lemma zero_volume_not_rejected : ¬ rejects_zero_volume zero_volume_book.
Proof.
  unfold rejects_zero_volume. intros H.
  assert (call_clear_market zero_volume_book = Some (Raises InvalidOrder)) as E.
  { apply H. exists (Order 0 1 10 0 "Z1"). split; [|done].
    simpl. apply list_elem_of_here. }
  vm_compute in E. discriminate E.
Qed.

(** C8 (amended): an order of zero volume raises no error; it is left out
    of both the supply and the demand list, so it never enters the matching
    walk, and the call returns with the order unchanged. *)
Theorem zero_volume_skipped books i o :
  concat books !! i = Some o →
  volume o = 0 →
  (i ∉ supply_of (concat books)) ∧
  (i ∉ demand_of (concat books)) ∧
  ∃ r after,
    call_clear_market books = Some (Returns (r, after)) ∧
    after !! i = Some o.
Proof.
  intros Hi Hv.
  assert (vol (concat books) i = 0) as Hz by (by rewrite (vol_lookup _ _ _ Hi)).
  split_and!.
  - rewrite elem_of_supply_of. lia.
  - rewrite elem_of_demand_of. lia.
  - destruct (clear_market_inv books) as (s & Hs & Hinv & _).
    eexists _, _. unfold call_clear_market. rewrite Hs. split; [done|].
    rewrite <- Hi. by apply (inv_zero _ _ Hinv).
Qed.

Lemma zero_volume_skipped_witness :
  (0%nat ∉ supply_of (concat zero_volume_book)) ∧
  (0%nat ∉ demand_of (concat zero_volume_book)) ∧
  ∃ r after,
    call_clear_market zero_volume_book = Some (Returns (r, after)) ∧
    after !! 0%nat = Some (Order 0 1 10 0 "Z1").
Proof.
  apply (zero_volume_skipped zero_volume_book 0 (Order 0 1 10 0 "Z1"));
    reflexivity.
Defined.

End DemoFacts.

(** ** The intermediate tier *)

Module IntermediateFacts.
Import Py Intermediate PyFacts.

(** *** [handle_market_feedback] *)

(** The loop stops where it is: nothing (more) is appended. *)
Ltac nothing_injected :=
  split; [done|]; exists []; rewrite app_nil_r;
  split_and!; try done; try apply prefix_nil;
  intros ? ?%elem_of_nil; done.

Lemma feedback_loop_spec accepted_orders c :
  let c' := (feedback_loop accepted_orders c).1 in
  wait_events c' = wait_events c ∧
  ∃ injected,
    all_orders c' = all_orders c ++ injected ∧
    injected `prefix_of` accepted_orders ∧
    ((feedback_loop accepted_orders c).2 = Returns () →
     injected = accepted_orders) ∧
    (∀ a, a ∉ injected → heap c' a = heap c a) ∧
    (∀ a, a ∈ injected → countered (heap c) (heap c') a).
Proof.
  revert c. induction accepted_orders as [|a rest IH]; intros c; simpl.
  { nothing_injected. }
  unfold getitem.
  destruct (heap c a !! "accepted_volume") as [v|] eqn:Ev; simpl;
    [|nothing_injected].
  destruct v as [z| |]; simpl; [|nothing_injected..].
  set (o' := delete "accepted_price"
               (delete "accepted_volume" (<["volume" := VNum (- z)]> (heap c a)))).
  set (c1 := {| heap := <[a := o']> (heap c);
                all_orders := all_orders c ++ [a];
                wait_events := wait_events c |}).
  destruct (IH c1) as (Hw & injected & Hao & Hpre & Hret & Hframe & Hcnt).
  split; [done|].
  assert (a ∉ injected) as Hfresh.
  { intros Ha. destruct (Hcnt a Ha) as (v & Hv & _).
    simpl in Hv. rewrite fn_lookup_insert in Hv. unfold o' in Hv.
    rewrite lookup_delete_ne, lookup_delete_eq in Hv; done. }
  exists (a :: injected). split_and!.
  - rewrite Hao. simpl. by rewrite <- app_assoc.
  - by apply prefix_cons.
  - intros Hr. by rewrite (Hret Hr).
  - intros b Hb. apply not_elem_of_cons in Hb as [Hba Hb].
    rewrite (Hframe b Hb). simpl. by rewrite fn_lookup_insert_ne.
  - intros b Hb. apply elem_of_cons in Hb as [->|Hb].
    + exists z. rewrite (Hframe a Hfresh). simpl.
      rewrite fn_lookup_insert. unfold o'. split_and!; [done|..].
      * by rewrite !lookup_delete_ne, lookup_insert_eq.
      * by rewrite lookup_delete_ne, lookup_delete_eq.
      * by rewrite lookup_delete_eq.
    + destruct (Hcnt b Hb) as (v & Hv & Hrest). exists v.
      split; [|done]. simpl in Hv.
      rewrite fn_lookup_insert_ne in Hv; [done|]. by intros ->.
Qed.

Lemma set_result_frame key r c :
  heap (set_result key r c).1 = heap c ∧
  all_orders (set_result key r c).1 = all_orders c.
Proof.
  unfold set_result. destruct (wait_events c !! key) as [[|?]|]; done.
Qed.

(** C2: whatever the accepted orders, the orders that
    [handle_market_feedback] appends to [all_orders] are the accepted
    orders it has processed, in order (all of them when the loop ends
    without an exception); each has as volume the negation of the
    [accepted_volume] it came with, and has neither an [accepted_volume]
    nor an [accepted_price] key any more. *)
Theorem feedback_counter_orders accepted_orders c :
  let c' := (handle_market_feedback accepted_orders c).1 in
  ∃ injected,
    all_orders c' = all_orders c ++ injected ∧
    injected `prefix_of` accepted_orders ∧
    ((handle_market_feedback accepted_orders c).2 = Returns () →
     injected = accepted_orders) ∧
    ∀ a, a ∈ injected →
      ∃ v, heap c a !! "accepted_volume" = Some (VNum v) ∧
           heap c' a !! "volume" = Some (VNum (- v)) ∧
           heap c' a !! "accepted_volume" = None ∧
           heap c' a !! "accepted_price" = None.
Proof.
  intros c'. unfold handle_market_feedback in c' |- *.
  destruct (feedback_loop_spec accepted_orders c)
    as (_ & injected & Hao & Hpre & Hret & _ & Hcnt).
  subst c'.
  destruct (feedback_loop accepted_orders c) as [c1 [[]|e]] eqn:E;
    simpl in *.
  - destruct (set_result_frame "upper" "ready" c1) as [-> ->].
    exists injected. split_and!; try done. intros _. by apply Hret.
  - exists injected. split_and!; done.
Qed.

(** *** The wait of the lower tier *)

Lemma ticks_frame n c : foldl deliver c (replicate n Tick) = c.
Proof. induction n as [|n IH]; simpl; done. Qed.

Lemma feedback_loop_wait_events accepted_orders c :
  wait_events (feedback_loop accepted_orders c).1 = wait_events c.
Proof. apply (feedback_loop_spec accepted_orders c). Qed.

(** C9 (as worded): with a deadline of one tick and no signal of the
    parent, the round of the lower tier does not fail with
    [UpstreamTimeout]; it is still suspended. *)
Lemma no_upstream_timeout :
  ¬ times_out (λ _ _, ()) 1 sample_context [].
Proof. unfold times_out. vm_compute. discriminate. Qed.

(** C9 (amended): the wait of the lower tier on its parent has no
    deadline. After [opening], [clear_market] stays suspended for any
    number of ticks without feedback, keeps the pending orders, and never
    fails with [UpstreamTimeout], whatever is delivered; it clears as soon
    as [handle_market_feedback] has returned. *)
Theorem wait_has_no_deadline {R} (super_clear_market : context → list product → R)
    (c : context) (market_products : list product) :
  (∀ n, round super_clear_market (replicate n Tick) c market_products
        = Suspended) ∧
  (∀ n, all_orders (foldl deliver (opening c) (replicate n Tick))
        = all_orders c) ∧
  (∀ events, round super_clear_market events c market_products
             ≠ Failed UpstreamTimeout) ∧
  (∀ n accepted_orders,
     let c' := (handle_market_feedback accepted_orders (opening c)).1 in
     (handle_market_feedback accepted_orders (opening c)).2 = Returns () →
     round super_clear_market
       (replicate n Tick ++ [Feedback accepted_orders]) c market_products
     = Ready (super_clear_market c' market_products)).
Proof.
  split_and!.
  - intros n. unfold round. rewrite ticks_frame. unfold clear_market.
    simpl. by rewrite lookup_insert_eq.
  - intros n. by rewrite ticks_frame.
  - intros events. unfold round, clear_market.
    by destruct (wait_events _ !! "upper") as [[|?]|].
  - intros n accepted_orders c' Hret. unfold round.
    rewrite foldl_app, ticks_frame. simpl. fold c'.
    unfold clear_market. subst c'.
    unfold handle_market_feedback in Hret |- *.
    pose proof (feedback_loop_wait_events accepted_orders (opening c)) as Hw.
    destruct (feedback_loop accepted_orders (opening c)) as [c1 [[]|e]];
      simpl in *; [|done].
    unfold set_result in Hret |- *. rewrite Hw in Hret |- *.
    simpl in *. rewrite lookup_insert_eq in Hret |- *. simpl.
    by rewrite lookup_insert_eq.
Qed.

(** *** [formulate_bids] *)

Lemma roles_loop_none roles all_orders products book :
  Forall (λ r, is_intermediate r = false) roles →
  roles_loop roles all_orders products book = Returns (book, None).
Proof.
  induction 1 as [|[clear|] roles Hr _ IH]; simpl; done.
Qed.

Lemma getitem_raises o k e : getitem o k = Raises e → e = KeyError k.
Proof. unfold getitem. destruct (o !! k); congruence. Qed.

Lemma sub_raises v w e : sub v w = Raises e → e = TypeError.
Proof. destruct v, w; simpl; congruence. Qed.

Lemma market_getter_raises o e :
  market_getter o = Raises e → ∃ k, e = KeyError k.
Proof.
  unfold market_getter, getitem.
  destruct (o !! "start_time"); simpl; [|intros [= <-]; by eexists].
  destruct (o !! "end_time"); simpl; [|intros [= <-]; by eexists].
  destruct (o !! "only_hours"); simpl; [done|intros [= <-]; by eexists].
Qed.

Lemma keyed_raises l e :
  keyed market_getter l = Raises e → ∃ k, e = KeyError k.
Proof.
  induction l as [|o l IH]; simpl; [done|].
  destruct (market_getter o) eqn:E; simpl.
  - destruct (keyed market_getter l); simpl; [done|].
    intros [= <-]. by apply IH.
  - intros [= <-]. by eapply market_getter_raises.
Qed.

Lemma roles_loop_some roles all_orders products book :
  Exists (λ r, is_intermediate r = true) roles →
  (∃ book' accepted,
     roles_loop roles all_orders products book
       = Returns (book', Some accepted)) ∨
  (∃ k, roles_loop roles all_orders products book = Raises (KeyError k)).
Proof.
  induction roles as [|[clear|] roles IH]; intros H; simpl.
  - by apply Exists_nil in H.
  - destruct (clear all_orders products) as [accepted rejected].
    unfold groupby.
    destruct (keyed market_getter rejected) as [kl|e] eqn:E; simpl.
    + left. by eexists _, _.
    + right. apply keyed_raises in E as [k ->]. by eexists.
  - apply IH. apply Exists_cons in H as [H|H]; [done|done].
Qed.

Lemma residual_loop_raises accepted book e :
  residual_loop accepted book = Raises e → ∀ n, e ≠ UnboundLocalError n.
Proof.
  revert book. induction accepted as [|o accepted IH]; intros book; simpl.
  { done. }
  destruct (getitem o "volume") as [v|e1] eqn:E1; simpl.
  2:{ intros [= <-]. apply getitem_raises in E1 as ->. done. }
  destruct (getitem o "accepted_volume") as [av|e2] eqn:E2; simpl.
  2:{ intros [= <-]. apply getitem_raises in E2 as ->. done. }
  destruct (sub v av) as [remaining|e3] eqn:E3; simpl.
  2:{ intros [= <-]. apply sub_raises in E3 as ->. done. }
  destruct (Z.abs remaining >? 1); apply IH.
Qed.

(** C10: [formulate_bids] fails with the unbound name [accepted] when no
    role of the context is a [PayAsClearIntermediateRole], and with such a
    role registered it never fails with an unbound name. *)
Theorem accepted_bound_iff_intermediate roles all_orders products :
  (Forall (λ r, is_intermediate r = false) roles →
   formulate_bids roles all_orders products
   = Raises (UnboundLocalError "accepted")) ∧
  (Exists (λ r, is_intermediate r = true) roles →
   ∀ n, formulate_bids roles all_orders products
        ≠ Raises (UnboundLocalError n)).
Proof.
  unfold formulate_bids. split.
  - intros H. by rewrite (roles_loop_none _ _ _ _ H).
  - intros H n.
    destruct (roles_loop_some roles all_orders products [] H)
      as [(book & accepted & ->) | (k & ->)]; simpl; [|done].
    intros E. by apply (residual_loop_raises _ _ _ E n).
Qed.

Lemma accepted_bound_iff_intermediate_witness :
  formulate_bids [OtherRole] [] [hour1]
    = Raises (UnboundLocalError "accepted") ∧
  ∀ n, formulate_bids mixed_roles [] [hour1] ≠ Raises (UnboundLocalError n).
Proof.
  split.
  - apply (proj1 (accepted_bound_iff_intermediate [OtherRole] [] [hour1])).
    repeat constructor.
  - apply (proj2 (accepted_bound_iff_intermediate mixed_roles [] [hour1])).
    apply Exists_cons_hd. reflexivity.
Defined.

Section Conservation.
Variable products : list product.

Lemma extend_rejected_flat book groups :
  extend_rejected products book groups
  = book ++ concat (snd <$> filter (matching_group products) groups).
Proof.
  revert book. unfold extend_rejected.
  induction groups as [|[k g] groups IH]; intros book; simpl.
  { by rewrite app_nil_r. }
  rewrite IH, filter_cons. unfold matching_group at 2. simpl.
  destruct (decide (k ∈ products)); simpl; [|done].
  by rewrite app_assoc.
Qed.

(** Grouping the runs and keeping the groups of the products is keeping
    the orders of the products. *)
Lemma runs_flat (kl : list (product * order)) :
  concat (snd <$> filter (matching_group products) (runs kl))
  = snd <$> filter (matching products) kl.
Proof.
  induction kl as [|[k x] kl IH]; [done|]. simpl.
  assert (∀ g gs, concat (snd <$> filter (matching_group products) ((k, g) :: gs))
                  = (if decide (k ∈ products) then g else [])
                    ++ concat (snd <$> filter (matching_group products) gs)) as Hgroup.
  { intros g gs. destruct (decide (k ∈ products)) as [Hk|Hk].
    - by rewrite (filter_cons_True (matching_group products)) by exact Hk.
    - by rewrite (filter_cons_False (matching_group products)) by exact Hk. }
  assert (snd <$> filter (matching products) ((k, x) :: kl)
          = (if decide (k ∈ products) then [x] else [])
            ++ (snd <$> filter (matching products) kl)) as ->.
  { destruct (decide (k ∈ products)) as [Hk|Hk].
    - by rewrite (filter_cons_True (matching products)) by exact Hk.
    - by rewrite (filter_cons_False (matching products)) by exact Hk. }
  rewrite <- IH.
  destruct (runs kl) as [|[k' g] gs].
  - rewrite Hgroup. by destruct (decide (k ∈ products)).
  - destruct (decide (k = k')) as [<-|Hne].
    + rewrite !Hgroup. destruct (decide (k ∈ products)); [|done].
      by rewrite app_assoc.
    + by rewrite Hgroup.
Qed.

Lemma keyed_filter l kl :
  keyed market_getter l = Returns kl →
  snd <$> filter (matching products) kl
  = filter (λ o, in_products products o = true) l.
Proof.
  revert kl. induction l as [|o l IH]; intros kl; simpl.
  { by intros [= <-]. }
  destruct (market_getter o) as [k|] eqn:Ek; simpl; [|done].
  destruct (keyed market_getter l) as [kl'|]; simpl; [|done].
  intros [= <-].
  assert (in_products products o = bool_decide (k ∈ products)) as Hin
    by (unfold in_products; by rewrite Ek).
  destruct (decide (k ∈ products)) as [Hk|Hk].
  - rewrite (filter_cons_True (matching products)) by exact Hk.
    rewrite filter_cons_True
      by (rewrite Hin; by apply bool_decide_eq_true_2).
    csimpl. by rewrite IH.
  - rewrite (filter_cons_False (matching products)) by exact Hk.
    rewrite filter_cons_False
      by (rewrite Hin, bool_decide_eq_false_2; done).
    by apply IH.
Qed.

Lemma roles_loop_parent roles all_orders accepted rejected book :
  parent_clearing roles all_orders products = Some (accepted, rejected) →
  roles_loop roles all_orders products book
  = (groups ← groupby rejected market_getter;
     Returns (extend_rejected products book groups, Some accepted)).
Proof.
  induction roles as [|[clear|] roles IH]; simpl; [done| |done].
  intros [= ->]. done.
Qed.

Lemma residual_loop_book accepted book book' :
  residual_loop accepted book = Returns book' →
  ∃ residuals,
    book' = book ++ residuals ∧
    total_volume residuals
    = total_residual (filter (λ o, 1 < Z.abs (residual_of o)) accepted).
Proof.
  revert book. induction accepted as [|o accepted IH]; intros book; simpl.
  { intros [= <-]. exists []. by rewrite app_nil_r. }
  unfold getitem.
  destruct (o !! "volume") as [v|] eqn:Ev; simpl; [|done].
  destruct (o !! "accepted_volume") as [av|] eqn:Ea; simpl; [|done].
  destruct v as [a| |], av as [b| |]; simpl; try done.
  assert (residual_of o = a - b) as Hres
    by (unfold residual_of; by rewrite Ev, Ea).
  destruct (Z.gtb_spec (Z.abs (a - b)) 1) as [Hgt|Hle].
  - intros H. destruct (IH _ H) as (residuals & -> & Htot).
    exists (<["volume" := VNum (a - b)]> o :: residuals).
    split; [by rewrite <- app_assoc|].
    rewrite filter_cons_True by (by rewrite Hres).
    unfold total_volume, total_residual in *. simpl.
    rewrite Htot, Hres. unfold volume_of.
    by rewrite lookup_insert_eq.
  - intros H. destruct (IH _ H) as (residuals & -> & Htot).
    exists residuals. split; [done|].
    rewrite filter_cons_False by (rewrite Hres; lia). done.
Qed.

(** C3 (amended): the total absolute volume of the orders that
    [formulate_bids] sends upward is the total absolute volume of the
    rejected orders of the products, plus the total absolute residual of
    the accepted orders whose residual exceeds 1 in absolute value; a
    residual of at most 1 is not sent. *)
Theorem counter_order_total roles all_orders accepted rejected book :
  parent_clearing roles all_orders products = Some (accepted, rejected) →
  formulate_bids roles all_orders products = Returns book →
  total_volume book
  = total_volume (filter (λ o, in_products products o = true) rejected)
    + total_residual (filter (λ o, 1 < Z.abs (residual_of o)) accepted).
Proof.
  intros Hp. unfold formulate_bids.
  rewrite (roles_loop_parent _ _ _ _ _ Hp). unfold groupby.
  destruct (keyed market_getter rejected) as [kl|] eqn:Ek; simpl; [|done].
  intros H. apply residual_loop_book in H as (residuals & -> & Htot).
  rewrite extend_rejected_flat, runs_flat, (keyed_filter _ _ Ek). simpl.
  unfold total_volume in *. by rewrite total_app, Htot.
Qed.
End Conservation.

(** C3 (as worded): a residual of 1 is not sent upward, so the total sent
    falls short of rejected plus residual volume. *)
Lemma conservation_fails_below_threshold :
  ¬ conservation_as_specified small_residual_roles [] [hour1].
Proof.
  intros H.
  specialize (H [mk_order 10 (Some 9)] [] [] eq_refl eq_refl).
  vm_compute in H. discriminate H.
Qed.

Lemma counter_order_total_witness :
  total_volume [mk_order (-7) None; <["volume" := VNum 6]> (mk_order 10 (Some 4))]
  = total_volume (filter (λ o, in_products [hour1] o = true) [mk_order (-7) None])
    + total_residual (filter (λ o, 1 < Z.abs (residual_of o))
                        [mk_order 10 (Some 9); mk_order 10 (Some 4)]).
Proof.
  apply (counter_order_total [hour1] mixed_roles []); vm_compute; reflexivity.
Defined.

End IntermediateFacts.

(** ** More about the matching walk *)

Module OperatorFacts.
Import Py Demo Operator PyFacts DemoFacts.

Implicit Types (st : list order) (i j k : nat) (o : order).

Lemma StronglySorted_lookup {A} (R : relation A) (l : list A) a b x y :
  StronglySorted R l → l !! a = Some x → l !! b = Some y → (a < b)%nat →
  R x y.
Proof.
  intros Hs. revert a b. induction Hs as [|z l Hs IH Hz]; intros a b Ha Hb Hlt.
  { done. }
  destruct b as [|b]; [lia|]. destruct a as [|a]; simpl in *.
  - injection Ha as ->. rewrite Forall_forall in Hz.
    apply Hz. by eapply list_elem_of_lookup_2.
  - apply (IH a b); [done|done|lia].
Qed.

Lemma supply_of_sorted st : StronglySorted (merit (λ i, price_at st i) lt) (supply_of st).
Proof. apply sorted_merit, StronglySorted_filter, StronglySorted_seq. Qed.

Lemma demand_of_sorted st :
  StronglySorted (merit (λ i, - price_at st i) lt) (demand_of st).
Proof. apply sorted_merit, StronglySorted_filter, StronglySorted_seq. Qed.

Lemma supply_of_rising st a b x y :
  supply_of st !! a = Some x → supply_of st !! b = Some y → (a ≤ b)%nat →
  price_at st x ≤ price_at st y.
Proof.
  intros Ha Hb Hle. destruct (decide (a = b)) as [->|Hne].
  { rewrite Ha in Hb. injection Hb as ->. lia. }
  assert (a < b)%nat as Hlt by lia.
  pose proof (StronglySorted_lookup _ _ _ _ _ _
                (supply_of_sorted st) Ha Hb Hlt) as H.
  by apply merit_key in H.
Qed.

Lemma demand_of_falling st a b x y :
  demand_of st !! a = Some x → demand_of st !! b = Some y → (a ≤ b)%nat →
  price_at st y ≤ price_at st x.
Proof.
  intros Ha Hb Hle. destruct (decide (a = b)) as [->|Hne].
  { rewrite Ha in Hb. injection Hb as ->. lia. }
  assert (a < b)%nat as Hlt by lia.
  pose proof (StronglySorted_lookup _ _ _ _ _ _
                (demand_of_sorted st) Ha Hb Hlt) as H.
  apply merit_key in H. lia.
Qed.

Lemma inv_node_at all_orders (s : locals) i o :
  inv all_orders s → orders s !! i = Some o → node_at all_orders i = node o.
Proof.
  intros Hinv Ho. unfold node_at.
  destruct (all_orders !! i) as [o0|] eqn:E.
  - destruct (inv_same _ _ Hinv i o0 E) as [v Hv].
    rewrite Ho in Hv. by injection Hv as ->.
  - apply lookup_lt_Some in Ho. apply lookup_ge_None in E.
    rewrite (inv_length _ _ Hinv) in Ho. lia.
Qed.

Lemma cursors_inv_initial all_orders : cursors_inv all_orders (initial all_orders).
Proof.
  split; simpl.
  - lia.
  - lia.
  - intros; lia.
  - intros; lia.
  - done.
  - done.
  - constructor.
  - intros t k j Ht. by apply elem_of_nil in Ht.
  - constructor.
  - done.
  - done.
  - by left.
  - intros a. rewrite ?filter_nil. simpl.
    rewrite (total_ext _ (λ _, 0)); [by induction (filter _ _)|].
    intros; unfold accepted_volume; lia.
  - intros a. rewrite ?filter_nil. simpl.
    rewrite (total_ext _ (λ _, 0)); [by induction (filter _ _)|].
    intros; unfold accepted_volume; lia.
Qed.

Section Cursors.
Variable all_orders : list order.

Lemma cursors_inv_step s s' :
  inv all_orders s → cursors_inv all_orders s →
  loop_body (supply_of all_orders) (demand_of all_orders) s = Some s' →
  cursors_inv all_orders s'.
Proof.
  intros Hinv Hci H.
  destruct (loop_body_inv all_orders s s' Hinv H)
    as (si & di & so & do & traded & Hs & Hd & Hso & Hdo & Hsi & Hdi & Hne
        & Htr & Hpos & Hp & Hcp & Hm & Ho & Hsc & Hdc).
  pose proof (lookup_lt_Some _ _ _ Hs) as Hls.
  pose proof (lookup_lt_Some _ _ _ Hd) as Hld.
  pose proof (lookup_lt_Some _ _ _ Hso) as Hlsi.
  pose proof (lookup_lt_Some _ _ _ Hdo) as Hldi.
  pose proof (vol_lookup _ _ _ Hso) as Hvs.
  pose proof (vol_lookup _ _ _ Hdo) as Hvd.
  pose proof (inv_supply _ _ Hinv si Hsi) as Hrs.
  pose proof (inv_demand _ _ Hinv di Hdi) as Hrd.
  assert (vol (orders s') si = volume so - traded) as Hvs'.
  { rewrite Ho, vol_insert_ne, vol_insert_eq by done. done. }
  assert (vol (orders s') di = volume do + traded) as Hvd'.
  { rewrite Ho, vol_insert_eq by (by rewrite length_insert). done. }
  assert (∀ i, i ≠ si → i ≠ di → orders s' !! i = orders s !! i) as Hother.
  { intros i ??. rewrite Ho, !list_lookup_insert_ne by done. done. }
  assert (∀ k i, supply_of all_orders !! k = Some i → i ≠ di) as Hsd.
  { intros k i Hk%list_elem_of_lookup_2%elem_of_supply_of ->. lia. }
  assert (∀ k i, demand_of all_orders !! k = Some i → i ≠ si) as Hds.
  { intros k i Hk%list_elem_of_lookup_2%elem_of_demand_of ->. lia. }
  assert (∀ k i, supply_of all_orders !! k = Some i → i = si →
                 k = supply_cursor s) as Hks.
  { intros k i Hk ->.
    by apply (NoDup_lookup _ _ _ _ (NoDup_supply_of all_orders) Hk Hs). }
  assert (∀ k i, demand_of all_orders !! k = Some i → i = di →
                 k = demand_cursor s) as Hkd.
  { intros k i Hk ->.
    by apply (NoDup_lookup _ _ _ _ (NoDup_demand_of all_orders) Hk Hd). }
  assert ((supply_cursor s ≤ supply_cursor s' ≤ S (supply_cursor s))%nat)
    as Hsc2 by (rewrite Hsc; destruct (_ <=? _); lia).
  assert ((demand_cursor s ≤ demand_cursor s' ≤ S (demand_cursor s))%nat)
    as Hdc2 by (rewrite Hdc; destruct (_ >=? _); lia).
  assert ((supply_cursor s + demand_cursor s
           < supply_cursor s' + demand_cursor s')%nat) as Hadv.
  { rewrite Hsc, Hdc.
    destruct (Z.leb_spec (volume so - traded) 0),
             (Z.geb_spec (volume do + traded) 0); lia. }
  pose proof (inv_price_at all_orders s si so Hinv Hso) as Hps.
  pose proof (inv_price_at all_orders s di do Hinv Hdo) as Hpd.
  split.
  - lia.
  - lia.
  - intros k i Hk Hlt. destruct (decide (i = si)) as [->|Hisi].
    + pose proof (Hks k si Hk eq_refl). subst k. rewrite Hvs'.
      rewrite Hsc in Hlt.
      destruct (Z.leb_spec (volume so - traded) 0); lia.
    + unfold vol. rewrite Hother by eauto.
      apply (ci_supply_done _ _ Hci k i Hk).
      assert (k ≠ supply_cursor s)
        by (intros ->; rewrite Hs in Hk; by injection Hk as ->).
      lia.
  - intros k i Hk Hlt. destruct (decide (i = di)) as [->|Hidi].
    + pose proof (Hkd k di Hk eq_refl). subst k. rewrite Hvd'.
      rewrite Hdc in Hlt.
      destruct (Z.geb_spec (volume do + traded) 0); lia.
    + unfold vol. rewrite Hother by eauto.
      apply (ci_demand_done _ _ Hci k i Hk).
      assert (k ≠ demand_cursor s)
        by (intros ->; rewrite Hd in Hk; by injection Hk as ->).
      lia.
  - intros k i Hk Hlt.
    assert (i ≠ si) by (intros ->; pose proof (Hks k si Hk eq_refl); lia).
    rewrite Hother by eauto.
    apply (ci_supply_fresh _ _ Hci k i Hk). lia.
  - intros k i Hk Hlt.
    assert (i ≠ di) by (intros ->; pose proof (Hkd k di Hk eq_refl); lia).
    rewrite Hother by eauto.
    apply (ci_demand_fresh _ _ Hci k i Hk). lia.
  - rewrite Hm. apply Forall_app. split; [apply (ci_pairs _ _ Hci)|].
    constructor; [|constructor].
    exists si, di. simpl.
    rewrite (inv_node_at all_orders s si so Hinv Hso),
            (inv_node_at all_orders s di do Hinv Hdo), Hps, Hpd.
    split_and!; try done; lia.
  - intros t k j Ht Hk Hle. rewrite Hm in Ht.
    apply elem_of_app in Ht as [Ht|Ht%list_elem_of_singleton].
    + apply (ci_floor _ _ Hci t k j Ht Hk). lia.
    + subst t. simpl.
      assert (price_at all_orders j ≤ price_at all_orders di)
        by (apply (demand_of_falling all_orders (demand_cursor s) k);
            [done|done|lia]).
      lia.
  - rewrite Hm. apply StronglySorted_app_2.
    + intros t1 t2 Ht1 Ht2%list_elem_of_singleton. subst t2.
      unfold falling. simpl.
      pose proof (ci_floor _ _ Hci t1 _ di Ht1 Hd (le_n _)). lia.
    + apply (ci_falling _ _ Hci).
    + repeat constructor.
  - rewrite Hcp, Hm, last_snoc. done.
  - rewrite Hm, length_app. simpl.
    pose proof (ci_count _ _ Hci). lia.
  - right. rewrite Hm, length_app. simpl.
    pose proof (ci_count _ _ Hci). lia.
  - intros a. rewrite Hm, filter_app, total_app, <- (ci_sold _ _ Hci a).
    rewrite filter_cons, filter_nil. simpl.
    rewrite <- (inv_node_at all_orders s si so Hinv Hso).
    destruct (decide (node_at all_orders si = a)) as [Ha|Ha].
    + rewrite (total_update (accepted_volume all_orders (orders s)) _ _ si).
      * unfold accepted_volume. simpl. lia.
      * apply NoDup_filter, NoDup_supply_of.
      * apply list_elem_of_filter. split; [done|].
        by eapply list_elem_of_lookup_2.
      * intros x [_ Hx%elem_of_supply_of]%list_elem_of_filter Hxs.
        unfold accepted_volume, vol. rewrite Hother; [done|done|].
        intros ->. lia.
    + simpl. rewrite Z.add_0_r. apply total_ext.
      intros x [Hxa Hx%elem_of_supply_of]%list_elem_of_filter.
      unfold accepted_volume, vol. rewrite Hother; [done| |].
      * intros ->. done.
      * intros ->. lia.
  - intros a. rewrite Hm, filter_app, total_app.
    rewrite filter_cons, filter_nil. simpl.
    rewrite <- (inv_node_at all_orders s di do Hinv Hdo).
    pose proof (ci_bought _ _ Hci a) as Hb.
    destruct (decide (node_at all_orders di = a)) as [Ha|Ha].
    + rewrite (total_update (accepted_volume all_orders (orders s)) _ _ di).
      * rewrite Hb. unfold accepted_volume. simpl. lia.
      * apply NoDup_filter, NoDup_demand_of.
      * apply list_elem_of_filter. split; [done|].
        by eapply list_elem_of_lookup_2.
      * intros x [_ Hx%elem_of_demand_of]%list_elem_of_filter Hxs.
        unfold accepted_volume, vol. rewrite Hother; [done| |done].
        intros ->. lia.
    + simpl. rewrite Z.add_0_r, <- Hb. apply total_ext.
      intros x [Hxa Hx%elem_of_demand_of]%list_elem_of_filter.
      unfold accepted_volume, vol. rewrite Hother; [done| |].
      * intros ->. lia.
      * intros ->. done.
Qed.

(** The walk ends, within the fuel of [clear_market], in a state with
    both invariants at which the loop is left. *)
Lemma while_loop_cursors fuel s :
  inv all_orders s → cursors_inv all_orders s →
  (remaining all_orders s < fuel)%nat →
  ∃ s', while_loop fuel (supply_of all_orders) (demand_of all_orders) s
          = Some s'
        ∧ inv all_orders s' ∧ cursors_inv all_orders s'
        ∧ loop_body (supply_of all_orders) (demand_of all_orders) s' = None.
Proof.
  revert s. induction fuel as [|fuel IH]; intros s Hinv Hci Hfuel; [lia|].
  simpl.
  destruct (loop_body _ _ s) as [s1|] eqn:E.
  - apply IH; [by eapply inv_step | by eapply cursors_inv_step |].
    pose proof (loop_body_remaining all_orders s s1 Hinv E). lia.
  - by exists s.
Qed.

End Cursors.

Lemma clear_market_cursors books :
  let all_orders := concat books in
  ∃ s, clear_market books
         = Some (Result (cur_price s) (matched_orders s), orders s)
       ∧ inv all_orders s ∧ cursors_inv all_orders s
       ∧ loop_body (supply_of all_orders) (demand_of all_orders) s = None.
Proof.
  intros all_orders. unfold clear_market. fold all_orders.
  destruct (while_loop_cursors all_orders
              (S (length (supply_of all_orders) + length (demand_of all_orders)))
              (initial all_orders)) as (s & Hs & Hinv & Hci & Hend).
  - apply inv_initial.
  - apply cursors_inv_initial.
  - unfold remaining. simpl. lia.
  - exists s. by rewrite Hs.
Qed.

(** X1: the walk assigns to nothing but the volume of an order, and never
    fills an order beyond its volume: a supply order keeps a volume between
    0 and what it offered, a demand order one between what it asked and 0,
    and an order of volume 0 stays as it is. *)
Theorem fills_within_orders books :
  let before := concat books in
  ∃ r after,
    clear_market books = Some (r, after) ∧
    length after = length before ∧
    ∀ i o, before !! i = Some o →
      ∃ v, after !! i = Some (set_volume o v) ∧
           (0 < volume o → 0 ≤ v ≤ volume o) ∧
           (volume o < 0 → volume o ≤ v ≤ 0) ∧
           (volume o = 0 → v = 0).
Proof.
  intros before.
  destruct (clear_market_inv books) as (s & Hs & Hinv & _).
  fold before in Hinv. eexists _, _. split; [exact Hs|].
  split; [apply (inv_length _ _ Hinv)|].
  intros i o Hi. destruct (inv_same _ _ Hinv i o Hi) as [v Hv].
  exists v. split; [done|].
  pose proof (vol_lookup _ _ _ Hi) as Hb.
  pose proof (vol_lookup _ _ _ Hv) as Ha. simpl in Ha.
  split_and!.
  - intros Hpos. pose proof (inv_supply _ _ Hinv i). lia.
  - intros Hneg. pose proof (inv_demand _ _ Hinv i). lia.
  - intros Hz. rewrite (inv_zero _ _ Hinv i) in Hv by lia.
    rewrite Hi in Hv. injection Hv as Hv. rewrite Hv in Hz. simpl in Hz. lia.
Qed.

(** X2: every match of the result pairs a supply order with a demand
    order of the order set: it names their nodes, moves a positive volume
    that is at most the volume of either, and is priced at the limit price
    of the buyer, which is at least the limit price of the seller. *)
Theorem matches_pair_orders books :
  ∃ r after,
    clear_market books = Some (r, after) ∧
    Forall (pairs (concat books)) (matches r).
Proof.
  destruct (clear_market_cursors books) as (s & Hs & _ & Hci & _).
  eexists _, _. split; [exact Hs|]. apply (ci_pairs _ _ Hci).
Qed.

(** X3: the prices of the matches do not rise from one match to the next,
    and the clearing price reported is the price of the last match, so no
    match is priced below it. *)
Theorem clearing_price_is_lowest books :
  ∃ r after,
    clear_market books = Some (r, after) ∧
    StronglySorted falling (matches r) ∧
    clearing_price r = trade_price <$> last (matches r) ∧
    ∀ t, t ∈ matches r →
      ∃ p, clearing_price r = Some p ∧ p ≤ trade_price t.
Proof.
  destruct (clear_market_cursors books) as (s & Hs & _ & Hci & _).
  eexists _, _. split; [exact Hs|]. simpl.
  pose proof (ci_falling _ _ Hci) as Hf. pose proof (ci_last _ _ Hci) as Hl.
  split_and!; [done|done|].
  intros t Ht. rewrite Hl.
  destruct (last (matched_orders s)) as [tl|] eqn:E.
  - exists (trade_price tl). split; [done|].
    apply last_Some in E as [l' E]. rewrite E in Ht, Hf.
    apply elem_of_app in Ht as [Ht|Ht%list_elem_of_singleton].
    + apply (StronglySorted_app_1_elem_of _ _ _ t tl Hf Ht).
      apply list_elem_of_here.
    + subst t. lia.
  - apply last_None in E. rewrite E in Ht. by apply elem_of_nil in Ht.
Qed.

(** X4: the walk leaves no trade undone: after it, no supply order with
    volume left and demand order with volume left are price-compatible. *)
Theorem no_trade_left books :
  ∃ r after,
    clear_market books = Some (r, after) ∧
    ∀ i j, 0 < vol after i → vol after j < 0 →
           price_at after j < price_at after i.
Proof.
  set (before := concat books).
  destruct (clear_market_cursors books) as (s & Hs & Hinv & Hci & Hend).
  fold before in Hinv, Hci, Hend.
  eexists _, _. split; [exact Hs|]. intros i j Hi Hj.
  assert (∀ x, price_at (orders s) x = price_at before x) as Hprice.
  { intros x. destruct (orders s !! x) as [o|] eqn:E.
    - by rewrite (inv_price_at before s x o Hinv E), (price_at_lookup _ _ _ E).
    - unfold price_at. rewrite E.
      apply lookup_ge_None in E. rewrite (inv_length _ _ Hinv) in E.
      apply lookup_ge_None in E. by rewrite E. }
  rewrite !Hprice.
  assert (0 < vol before i) as Hbi.
  { destruct (Z.lt_trichotomy (vol before i) 0) as [H|[H|H]]; [|..|done].
    - pose proof (inv_demand _ _ Hinv i H). lia.
    - unfold vol in Hi. rewrite (inv_zero _ _ Hinv i H) in Hi.
      fold (vol before i) in Hi. lia. }
  assert (vol before j < 0) as Hbj.
  { destruct (Z.lt_trichotomy (vol before j) 0) as [H|[H|H]]; [done|..].
    - unfold vol in Hj. rewrite (inv_zero _ _ Hinv j H) in Hj.
      fold (vol before j) in Hj. lia.
    - pose proof (inv_supply _ _ Hinv j H). lia. }
  apply elem_of_supply_of, list_elem_of_lookup_1 in Hbi as [ki Hki].
  apply elem_of_demand_of, list_elem_of_lookup_1 in Hbj as [kj Hkj].
  assert (supply_cursor s ≤ ki)%nat as Hci1.
  { destruct (decide (ki < supply_cursor s)%nat) as [Hlt|]; [|lia].
    pose proof (ci_supply_done _ _ Hci ki i Hki Hlt). lia. }
  assert (demand_cursor s ≤ kj)%nat as Hcj1.
  { destruct (decide (kj < demand_cursor s)%nat) as [Hlt|]; [|lia].
    pose proof (ci_demand_done _ _ Hci kj j Hkj Hlt). lia. }
  destruct (loop_body_None before s Hinv Hend)
    as [Hn|[Hn|(si & di & Hsi & Hdi & Hlt)]].
  - apply lookup_ge_None in Hn. apply lookup_lt_Some in Hki. lia.
  - apply lookup_ge_None in Hn. apply lookup_lt_Some in Hkj. lia.
  - pose proof (supply_of_rising before _ _ _ _ Hsi Hki Hci1).
    pose proof (demand_of_falling before _ _ _ _ Hdi Hkj Hcj1). lia.
Qed.

(** X5: on each side at most one order is partly filled. *)
Theorem one_partial_fill_per_side books :
  let before := concat books in
  ∃ r after,
    clear_market books = Some (r, after) ∧
    ∀ i1 i2,
      partly_filled before after i1 → partly_filled before after i2 →
      (0 < vol before i1 ∧ 0 < vol before i2) ∨
      (vol before i1 < 0 ∧ vol before i2 < 0) →
      i1 = i2.
Proof.
  intros before.
  destruct (clear_market_cursors books) as (s & Hs & Hinv & Hci & _).
  fold before in Hinv, Hci.
  eexists _, _. split; [exact Hs|].
  assert (∀ i, partly_filled before (orders s) i → 0 < vol before i →
               supply_of before !! supply_cursor s = Some i) as Hsup.
  { intros i [Hnz Hne] Hi.
    apply elem_of_supply_of, list_elem_of_lookup_1 in Hi as [k Hk].
    destruct (Nat.lt_trichotomy k (supply_cursor s)) as [Hlt|[->|Hgt]].
    - pose proof (ci_supply_done _ _ Hci k i Hk Hlt). lia.
    - done.
    - pose proof (ci_supply_fresh _ _ Hci k i Hk Hgt) as E.
      unfold vol in Hne. by rewrite E in Hne. }
  assert (∀ i, partly_filled before (orders s) i → vol before i < 0 →
               demand_of before !! demand_cursor s = Some i) as Hdem.
  { intros i [Hnz Hne] Hi.
    apply elem_of_demand_of, list_elem_of_lookup_1 in Hi as [k Hk].
    destruct (Nat.lt_trichotomy k (demand_cursor s)) as [Hlt|[->|Hgt]].
    - pose proof (ci_demand_done _ _ Hci k i Hk Hlt). lia.
    - done.
    - pose proof (ci_demand_fresh _ _ Hci k i Hk Hgt) as E.
      unfold vol in Hne. by rewrite E in Hne. }
  intros i1 i2 H1 H2 [[Hp1 Hp2]|[Hn1 Hn2]].
  - pose proof (Hsup i1 H1 Hp1) as E1. pose proof (Hsup i2 H2 Hp2) as E2.
    congruence.
  - pose proof (Hdem i1 H1 Hn1) as E1. pose proof (Hdem i2 H2 Hn2) as E2.
    congruence.
Qed.


(** *** The results for the agents *)

Lemma get_setdefault_append (k : string) x d a :
  get (setdefault_append k x d) a
  = get d a ++ (if decide (k = a) then [x] else []).
Proof.
  induction d as [|[k' l] d IH]; simpl.
  { by destruct (decide (k = a)). }
  destruct (decide (k' = k)) as [->|Hne]; simpl.
  - destruct (decide (k = a)); [done|by rewrite app_nil_r].
  - destruct (decide (k' = a)) as [->|]; [|done].
    rewrite decide_False by done. by rewrite app_nil_r.
Qed.

Lemma keys_setdefault_append (k : string) x d :
  (setdefault_append k x d).*1
  = if decide (k ∈ d.*1) then d.*1 else d.*1 ++ [k].
Proof.
  induction d as [|[k' l] d IH].
  { rewrite decide_False; [done|]. apply not_elem_of_nil. }
  cbn [setdefault_append]. rewrite !fmap_cons. cbn [fst].
  destruct (decide (k' = k)) as [->|Hne].
  - rewrite decide_True; [done|]. apply list_elem_of_here.
  - rewrite fmap_cons, IH. cbn [fst].
    destruct (decide (k ∈ d.*1)) as [Hk|Hk].
    + rewrite decide_True; [done|]. by apply list_elem_of_further.
    + rewrite decide_False; [done|].
      intros [?|?]%elem_of_cons; congruence.
Qed.

Lemma total_setdefault_append (k : string) x d :
  total (λ kv, total fill_volume kv.2) (setdefault_append k x d)
  = total (λ kv, total fill_volume kv.2) d + fill_volume x.
Proof.
  induction d as [|[k' l] d IH]; simpl; [lia|].
  destruct (decide (k' = k)); simpl.
  - rewrite total_app. simpl. lia.
  - rewrite IH. lia.
Qed.

Lemma keyed_by_entries_step (k : string) x d :
  keyed_by_entries d → keyed_by_entries (setdefault_append k x d).
Proof.
  intros [Hnd Hkeys]. split.
  - rewrite keys_setdefault_append.
    destruct (decide (k ∈ d.*1)); [done|].
    apply NoDup_app. split_and!; [done| |apply NoDup_singleton].
    intros a Ha ->%list_elem_of_singleton. done.
  - intros a. rewrite keys_setdefault_append, get_setdefault_append.
    destruct (decide (k = a)) as [->|Hne].
    + split; [intros _; by destruct (get d a)|intros _].
      destruct (decide (a ∈ d.*1)); [done|].
      apply elem_of_app. right. apply list_elem_of_here.
    + rewrite app_nil_r, <- Hkeys.
      destruct (decide (k ∈ d.*1)); [done|].
      rewrite elem_of_app, list_elem_of_singleton.
      split; [intros [?|?]; [done|congruence] | by left].
Qed.

Lemma per_agent_results_fold matched_orders d :
  let d' := foldl record_match d matched_orders in
  (keyed_by_entries d → keyed_by_entries d') ∧
  (∀ a, get d' a = get d a ++ fills_of a matched_orders) ∧
  total (λ kv, total fill_volume kv.2) d'
  = total (λ kv, total fill_volume kv.2) d.
Proof.
  revert d. induction matched_orders as [|m ms IH]; intros d; simpl.
  { split_and!; [done| |done]. intros a. by rewrite app_nil_r. }
  destruct (IH (record_match d m)) as (Hk & Hg & Ht).
  split_and!.
  - intros Hd. by apply Hk, keyed_by_entries_step, keyed_by_entries_step.
  - intros a. rewrite Hg. unfold record_match.
    rewrite !get_setdefault_append.
    unfold fills_of. csimpl. by rewrite <- !app_assoc.
  - rewrite Ht. unfold record_match.
    rewrite !total_setdefault_append. simpl. lia.
Qed.

(** X7: [per_agent_results] has one key for each agent that is seller or
    buyer of a match and no other key; under it are the sales of the agent
    (with negated volume) and its purchases, at the prices of the matches
    and in their order. *)
Theorem per_agent_results_entries matched_orders :
  let d := per_agent_results matched_orders in
  NoDup d.*1 ∧
  ∀ a, get d a = fills_of a matched_orders ∧
       (a ∈ d.*1 ↔
        ∃ m, m ∈ matched_orders ∧ (seller m = a ∨ buyer m = a)).
Proof.
  intros d. subst d. unfold per_agent_results.
  destruct (per_agent_results_fold matched_orders []) as (Hk & Hg & _).
  destruct Hk as [Hnd Hkeys].
  { split; [constructor|]. intros a. simpl. split; [|done].
    intros Ha. by apply elem_of_nil in Ha. }
  split; [done|]. intros a. split; [by rewrite Hg|].
  rewrite Hkeys, Hg. simpl. unfold fills_of.
  split.
  - intros Hne. destruct (matched_orders ≫= _) as [|f l] eqn:E; [done|].
    assert (f ∈ f :: l) as Hf by apply list_elem_of_here.
    rewrite <- E in Hf. apply list_elem_of_bind in Hf as (m & Hf & Hm).
    exists m. split; [done|].
    destruct (decide (seller m = a)); [by left|].
    destruct (decide (buyer m = a)); [by right|].
    by apply elem_of_nil in Hf.
  - intros (m & Hm & Hsb) E.
    assert (∀ f, f ∉ matched_orders ≫= λ m,
              (if decide (seller m = a)
               then [Fill (- trade_volume m) (trade_price m)] else []) ++
              (if decide (buyer m = a)
               then [Fill (trade_volume m) (trade_price m)] else []))
      as Hnone by (rewrite E; intros f; apply not_elem_of_nil).
    destruct Hsb as [Hsb|Hsb].
    + apply (Hnone (Fill (- trade_volume m) (trade_price m))).
      apply list_elem_of_bind. exists m. split; [|done].
      rewrite decide_True by done. apply list_elem_of_here.
    + apply (Hnone (Fill (trade_volume m) (trade_price m))).
      apply list_elem_of_bind. exists m. split; [|done].
      rewrite (decide_True (P := buyer m = a)) by done.
      apply elem_of_app. right. apply list_elem_of_here.
Qed.

(** X8: the volumes reported to all agents together sum to zero. *)
Theorem per_agent_results_net_zero matched_orders :
  total (λ kv, total fill_volume kv.2) (per_agent_results matched_orders) = 0.
Proof.
  unfold per_agent_results.
  destruct (per_agent_results_fold matched_orders []) as (_ & _ & Ht).
  by rewrite Ht.
Qed.

(** *** [on_market_result] *)

Lemma weight_nonneg (trades : list fill) :
  0 ≤ total (λ t, Z.abs (fill_volume t)) trades.
Proof. induction trades as [|t trades IH]; simpl; lia. Qed.

Lemma weight_zero (trades : list fill) :
  total (λ t, Z.abs (fill_volume t)) trades = 0
  ↔ Forall (λ t, fill_volume t = 0) trades.
Proof.
  induction trades as [|t trades IH]; simpl.
  { split; [constructor|done]. }
  pose proof (weight_nonneg trades). rewrite Forall_cons, <- IH. lia.
Qed.

Lemma weighted_lower (trades : list fill) lo :
  Forall (λ t, lo ≤ fill_price t) trades →
  lo * total (λ t, Z.abs (fill_volume t)) trades
  ≤ total (λ t, fill_price t * Z.abs (fill_volume t)) trades.
Proof. induction 1 as [|t trades Ht _ IH]; simpl; nia. Qed.

Lemma weighted_upper (trades : list fill) hi :
  Forall (λ t, fill_price t ≤ hi) trades →
  total (λ t, fill_price t * Z.abs (fill_volume t)) trades
  ≤ hi * total (λ t, Z.abs (fill_volume t)) trades.
Proof. induction 1 as [|t trades Ht _ IH]; simpl; nia. Qed.

(** X9: [on_market_result] divides by zero just when it is given trades
    that all have volume zero; otherwise the average price it logs is a
    quotient with positive denominator that lies between any two bounds of
    the prices of the trades. Without trades it logs no average. *)
Theorem on_market_result_average (trades : list fill) :
  (on_market_result trades = ZeroDivisionError
   ↔ trades ≠ [] ∧ Forall (λ t, fill_volume t = 0) trades) ∧
  (trades = [] → on_market_result trades = Logged 0 None []) ∧
  (∀ nv num den lines,
     on_market_result trades = Logged nv (Some (num, den)) lines →
     0 < den ∧
     ∀ lo hi, Forall (λ t, lo ≤ fill_price t ≤ hi) trades →
              lo * den ≤ num ≤ hi * den).
Proof.
  split_and!.
  - unfold on_market_result.
    destruct trades as [|t trades]; [split; [done|by intros [? _]]|].
    rewrite <- weight_zero.
    destruct (Z.eqb_spec (total (λ t, Z.abs (fill_volume t)) (t :: trades)) 0).
    + done.
    + split; [done|]. intros [_ ?]. done.
  - by intros ->.
  - intros nv num den lines. unfold on_market_result.
    destruct trades as [|t trades]; [done|].
    destruct (Z.eqb_spec (total (λ t, Z.abs (fill_volume t)) (t :: trades)) 0)
      as [|Hne]; [done|].
    intros [= <- <- <- <-].
    pose proof (weight_nonneg (t :: trades)) as Hw. simpl in Hne, Hw.
    split; [lia|]. intros lo hi Hb. split.
    + apply (weighted_lower (t :: trades)).
      eapply Forall_impl; [exact Hb|]. simpl. lia.
    + apply (weighted_upper (t :: trades)).
      eapply Forall_impl; [exact Hb|]. simpl. lia.
Qed.

Lemma get_elem (d : list (string * list fill)) a l :
  NoDup d.*1 → (a, l) ∈ d → get d a = l.
Proof.
  induction d as [|[k' l'] d IH]; intros Hnd Hin.
  { by apply elem_of_nil in Hin. }
  rewrite fmap_cons in Hnd. apply NoDup_cons in Hnd as [Hk Hnd]. simpl in *.
  apply elem_of_cons in Hin as [[= -> ->]|Hin].
  - by rewrite decide_True.
  - rewrite decide_False; [by apply IH|].
    intros ->. apply Hk. apply list_elem_of_fmap. by exists (a, l).
Qed.

Lemma fills_of_elem a matched_orders f :
  f ∈ fills_of a matched_orders →
  ∃ m, m ∈ matched_orders ∧ fill_price f = trade_price m ∧
       Z.abs (fill_volume f) = Z.abs (trade_volume m).
Proof.
  unfold fills_of. intros (m & Hf & Hm)%list_elem_of_bind.
  exists m. split; [done|].
  apply elem_of_app in Hf as [Hf|Hf].
  - destruct (decide (seller m = a)); [|by apply elem_of_nil in Hf].
    apply list_elem_of_singleton in Hf as ->. simpl. lia.
  - destruct (decide (buyer m = a)); [|by apply elem_of_nil in Hf].
    apply list_elem_of_singleton in Hf as ->. simpl. lia.
Qed.

Lemma falling_last (l : list trade) tl t :
  StronglySorted falling l → last l = Some tl → t ∈ l →
  trade_price tl ≤ trade_price t.
Proof.
  intros Hf [l' ->]%last_Some Ht.
  apply elem_of_app in Ht as [Ht|Ht%list_elem_of_singleton].
  - apply (StronglySorted_app_1_elem_of _ _ _ t tl Hf Ht).
    apply list_elem_of_here.
  - subst t. lia.
Qed.

(** X10: an agent that [clear_market] has results for is never given
    trades on which [on_market_result] divides by zero; the average price
    it logs is at least the clearing price. *)
Theorem notified_agents_average books :
  ∃ r after,
    clear_market books = Some (r, after) ∧
    ∀ a trades, (a, trades) ∈ per_agent_results (matches r) →
      ∃ nv num den lines p,
        on_market_result trades = Logged nv (Some (num, den)) lines ∧
        0 < den ∧ clearing_price r = Some p ∧ p * den ≤ num.
Proof.
  destruct (clear_market_cursors books) as (s & Hs & _ & Hci & _).
  eexists _, _. split; [exact Hs|]. simpl. intros a trades Hin.
  destruct (per_agent_results_entries (matched_orders s)) as [Hnd Hd].
  destruct (Hd a) as [Hget Hkey].
  rewrite (get_elem _ _ _ Hnd Hin) in Hget.
  assert (a ∈ (per_agent_results (matched_orders s)).*1) as Ha
    by (apply list_elem_of_fmap; by exists (a, trades)).
  apply Hkey in Ha as (m0 & Hm0 & _).
  destruct (last (matched_orders s)) as [tl|] eqn:El.
  2:{ apply last_None in El. rewrite El in Hm0. by apply elem_of_nil in Hm0. }
  pose proof (ci_last _ _ Hci) as Hlast. rewrite El in Hlast. simpl in Hlast.
  assert (Forall (λ f, trade_price tl ≤ fill_price f ∧ fill_volume f ≠ 0)
            trades) as Hall.
  { apply Forall_forall. intros f Hf. rewrite Hget in Hf.
    apply fills_of_elem in Hf as (m & Hm & -> & Habs).
    split; [by apply (falling_last _ _ _ (ci_falling _ _ Hci) El)|].
    pose proof (ci_pairs _ _ Hci) as Hp. rewrite Forall_forall in Hp.
    destruct (Hp m Hm) as (? & ? & ? & ? & ? & ? & ? & ? & ? & ? & ?). lia. }
  assert (trades ≠ []) as Hne.
  { rewrite Hget. intros E.
    destruct (Hd a) as [_ Hkey'].
    destruct (per_agent_results_fold (matched_orders s) []) as ([_ Hk] & _).
    { split; [constructor|]. intros b. simpl. split; [|done].
      intros Hb. by apply elem_of_nil in Hb. }
    apply (Hk a).
    - apply list_elem_of_fmap. by exists (a, trades).
    - fold (per_agent_results (matched_orders s)).
      destruct (Hd a) as [-> _]. done. }
  destruct (on_market_result_average trades) as (Hzero & _ & _).
  unfold on_market_result in *.
  destruct trades as [|t trades]; [done|].
  destruct (Z.eqb_spec (total (λ t, Z.abs (fill_volume t)) (t :: trades)) 0)
    as [Hz|Hnz].
  - apply weight_zero in Hz. apply Forall_cons in Hz as [Hz _].
    apply Forall_cons in Hall as [[_ Hnz] _]. done.
  - eexists _, _, _, _, (trade_price tl). split; [done|].
    pose proof (weight_nonneg (t :: trades)).
    split_and!; [lia|done|].
    apply weighted_lower. eapply Forall_impl; [exact Hall|]. simpl. tauto.
Qed.

(** X11: the net volume reported to an agent is the negated accepted
    volume of the orders of its node: what it is told it sold is what was
    taken from its supply orders, what it is told it bought is what was
    taken from its demand orders. *)
Theorem agent_net_volume books :
  let before := concat books in
  ∃ r after,
    clear_market books = Some (r, after) ∧
    ∀ a,
      total fill_volume (get (per_agent_results (matches r)) a)
      = - total (accepted_volume before after)
            (filter (λ i, node_at before i = a)
                    (supply_orders before ++ demand_orders before)).
Proof.
  intros before.
  destruct (clear_market_cursors books) as (s & Hs & _ & Hci & _).
  fold before in Hci. eexists _, _. split; [exact Hs|]. simpl. intros a.
  destruct (per_agent_results_entries (matched_orders s)) as [_ Hd].
  destruct (Hd a) as [-> _].
  rewrite filter_app, total_app.
  rewrite <- (total_perm _
                (filter (λ i, node_at before i = a) (supply_of before))
                (filter (λ i, node_at before i = a) (supply_orders before)))
    by (by rewrite supply_of_perm).
  rewrite <- (total_perm _
                (filter (λ i, node_at before i = a) (demand_of before))
                (filter (λ i, node_at before i = a) (demand_orders before)))
    by (by rewrite demand_of_perm).
  rewrite (ci_sold _ _ Hci a), (ci_bought _ _ Hci a).
  generalize (matched_orders s). intros ms. unfold fills_of.
  induction ms as [|m ms IH]; [done|]. csimpl.
  rewrite !total_app, IH, !filter_cons.
  destruct (decide (seller m = a)), (decide (buyer m = a)); simpl; lia.
Qed.

(** *** The state of charge *)

Section Soc.
Variable times_efficiency : Z → Z.

Lemma delta_soc_fold battery_name (matched_orders : list trade) delta0 :
  let step := λ delta m,
    let delta :=
      if decide (seller m = battery_name)
      then delta - trade_volume m else delta in
    if decide (buyer m = battery_name)
    then delta + times_efficiency (trade_volume m) else delta in
  foldl step delta0 matched_orders
  = delta0 + delta_soc times_efficiency battery_name matched_orders.
Proof.
  intros step. unfold delta_soc. fold step.
  revert delta0. induction matched_orders as [|m ms IH]; intros delta0; simpl.
  { lia. }
  rewrite IH, (IH (step 0 m)). unfold step.
  destruct (decide (seller m = battery_name)),
           (decide (buyer m = battery_name)); lia.
Qed.

Lemma delta_soc_cons battery_name m (matched_orders : list trade) :
  delta_soc times_efficiency battery_name (m :: matched_orders)
  = (if decide (seller m = battery_name) then - trade_volume m else 0)
    + (if decide (buyer m = battery_name)
       then times_efficiency (trade_volume m) else 0)
    + delta_soc times_efficiency battery_name matched_orders.
Proof.
  unfold delta_soc at 1. simpl. rewrite delta_soc_fold.
  destruct (decide (seller m = battery_name)),
           (decide (buyer m = battery_name)); lia.
Qed.

(** X12: the update of the state of charge keeps the battery between
    empty and full: the new state of charge is not negative and, the
    capacity not being negative, not above the capacity. A battery that is
    party to no match and was within these bounds keeps its state of
    charge, and a battery that only sells (volumes not negative) does not
    gain charge. *)
Theorem update_soc_bounds (b : battery) (matched_orders : list trade) :
  ∃ b',
    update_soc times_efficiency (Some b) matched_orders = Some b' ∧
    name b' = name b ∧ capacity_mwh b' = capacity_mwh b ∧
    0 ≤ soc b' ∧
    (0 ≤ capacity_mwh b → soc b' ≤ capacity_mwh b) ∧
    (Forall (λ m, seller m ≠ name b ∧ buyer m ≠ name b) matched_orders →
     0 ≤ soc b ≤ capacity_mwh b → soc b' = soc b) ∧
    (Forall (λ m, buyer m ≠ name b ∧ 0 ≤ trade_volume m) matched_orders →
     0 ≤ soc b → soc b' ≤ soc b).
Proof.
  eexists. split; [done|]. simpl. split_and!; try done; try lia.
  - intros Hno Hin.
    assert (delta_soc times_efficiency (name b) matched_orders = 0) as ->.
    { induction Hno as [|m ms [Hs Hb] _ IH]; [done|].
      rewrite delta_soc_cons, IH.
      by rewrite decide_False, decide_False by done. }
    lia.
  - intros Hsell Hin.
    assert (delta_soc times_efficiency (name b) matched_orders ≤ 0) as Hd.
    { induction Hsell as [|m ms [Hb Hv] _ IH]; [done|].
      rewrite delta_soc_cons. rewrite (decide_False (P := buyer m = name b))
        by done.
      destruct (decide (seller m = name b)); lia. }
    lia.
Qed.
End Soc.

(** *** [FixedDemandStrategy] and the matcher *)

Lemma supply_orders_nil st :
  Forall (λ o, volume o ≤ 0) st → supply_orders st = [].
Proof.
  intros H. unfold supply_orders.
  induction (seq 0 (length st)) as [|i l IH]; [done|].
  rewrite filter_cons_False; [done|]. intros Hi.
  unfold vol in Hi. destruct (st !! i) as [o|] eqn:E; [|lia].
  rewrite Forall_forall in H.
  pose proof (H o (list_elem_of_lookup_2 _ _ _ E)). lia.
Qed.

(** X13: [FixedDemandStrategy.calculate_bids] makes one bid for each
    product, for the window of the product and at the maximal bid price;
    with a positive demand the bids are demand orders, and a market that
    receives nothing but such bids clears without a match and without a
    price, leaving the bids as they are. *)
Theorem fixed_demand_clears_nothing
    (bidders : list (fixed_demand_strategy * string * list (Z * Z))) :
  Forall (λ b, 0 < demand_mw b.1.1) bidders →
  let books := (λ b, calculate_bids b.1.1 b.1.2 b.2) <$> bidders in
  Forall2 (λ b book,
             start_time <$> book = fst <$> b.2 ∧
             end_time <$> book = snd <$> b.2 ∧
             Forall (λ o, price o = max_bid_price b.1.1 ∧
                          volume o = - demand_mw b.1.1 ∧
                          node o = b.1.2) book)
          bidders books ∧
  clear_market books = Some (Result None [], concat books).
Proof.
  intros Hpos books. split.
  - subst books. apply Forall2_fmap_r, Forall_Forall2_diag.
    apply Forall_forall. intros [[self nm] products] _. simpl.
    unfold calculate_bids. rewrite <- !list_fmap_compose.
    split_and!.
    + apply list_fmap_ext. by intros ? [??].
    + apply list_fmap_ext. by intros ? [??].
    + apply Forall_fmap, Forall_forall. by intros [??] _.
  - apply clear_market_no_pair. unfold no_feasible_pair.
    rewrite supply_orders_nil; [constructor|].
    apply Forall_concat. subst books. apply Forall_fmap.
    eapply Forall_impl; [exact Hpos|].
    intros [[self nm] products] Hd. simpl in *.
    unfold calculate_bids. apply Forall_fmap, Forall_forall.
    intros [??] _. simpl. lia.
Qed.

Lemma fixed_demand_clears_nothing_witness :
  let bidders := [ (FixedDemandStrategy 10 300, "Demand1", [(0, 1); (1, 2)]) ] in
  let books := (λ b, calculate_bids b.1.1 b.1.2 b.2) <$> bidders in
  Forall2 (λ b book,
             start_time <$> book = fst <$> b.2 ∧
             end_time <$> book = snd <$> b.2 ∧
             Forall (λ o, price o = max_bid_price b.1.1 ∧
                          volume o = - demand_mw b.1.1 ∧
                          node o = b.1.2) book)
          bidders books ∧
  clear_market books = Some (Result None [], concat books).
Proof.
  apply (fixed_demand_clears_nothing
           [ (FixedDemandStrategy 10 300, "Demand1", [(0, 1); (1, 2)]) ]).
  repeat constructor.
Defined.

End OperatorFacts.

(** ** More about the intermediate tier *)

Module CouplingFacts.
Import Py Intermediate Coupling PyFacts IntermediateFacts.

(** *** [handle_market_feedback] *)

Lemma feedback_loop_returns accepted_orders c :
  (feedback_loop accepted_orders c).2 = Returns ()
  ↔ NoDup accepted_orders ∧
    ∀ a, a ∈ accepted_orders → numeric_accepted (heap c) a.
Proof.
  revert c. induction accepted_orders as [|a rest IH]; intros c; simpl.
  { split; [intros _|done]. split; [constructor|].
    intros a Ha. by apply elem_of_nil in Ha. }
  unfold getitem.
  destruct (heap c a !! "accepted_volume") as [v|] eqn:Ev; simpl.
  2:{ split; [done|]. intros [_ H].
      destruct (H a (list_elem_of_here _ _)) as [v Hv]. congruence. }
  destruct v as [z| |]; simpl.
  2,3: split; [done|]; intros [_ H];
       destruct (H a (list_elem_of_here _ _)) as [v Hv]; congruence.
  rewrite IH. simpl. rewrite NoDup_cons.
  assert (¬ numeric_accepted
            (<[a:=delete "accepted_price"
                    (delete "accepted_volume"
                       (<["volume":=VNum (- z)]> (heap c a)))]> (heap c)) a)
    as Hgone.
  { intros [v Hv]. rewrite fn_lookup_insert in Hv.
    rewrite lookup_delete_ne, lookup_delete_eq in Hv; done. }
  split.
  - intros [Hnd Hnum]. split_and!; [|done|].
    + intros Ha. by apply Hgone, Hnum.
    + intros b [->|Hb]%elem_of_cons; [by exists z|].
      destruct (Hnum b Hb) as [v Hv]. exists v.
      rewrite fn_lookup_insert_ne in Hv; [done|].
      intros ->. apply Hgone. by exists v.
  - intros [[Ha Hnd] Hnum]. split; [done|].
    intros b Hb. destruct (Hnum b (list_elem_of_further _ _ _ Hb)) as [v Hv].
    exists v. rewrite fn_lookup_insert_ne; [done|]. by intros ->.
Qed.

Lemma feedback_loop_raises accepted_orders c e :
  (feedback_loop accepted_orders c).2 = Raises e →
  e = KeyError "accepted_volume" ∨ e = TypeError.
Proof.
  revert c. induction accepted_orders as [|a rest IH]; intros c; simpl.
  { done. }
  unfold getitem.
  destruct (heap c a !! "accepted_volume") as [v|] eqn:Ev; simpl.
  2:{ intros [= <-]. by left. }
  destruct v as [z| |]; simpl; [apply IH|..]; intros [= <-]; by right.
Qed.

Lemma feedback_loop_keys accepted_orders c a (k : string) :
  k ∉ feedback_keys →
  heap (feedback_loop accepted_orders c).1 a !! k = heap c a !! k.
Proof.
  intros Hk. revert c.
  induction accepted_orders as [|b rest IH]; intros c; simpl; [done|].
  unfold getitem.
  destruct (heap c b !! "accepted_volume") as [v|]; simpl; [|done].
  destruct v as [z| |]; simpl; [|done..].
  rewrite IH. simpl.
  destruct (decide (b = a)) as [->|Hne].
  - rewrite fn_lookup_insert.
    rewrite !lookup_delete_ne, lookup_insert_ne; [done|..];
      intros <-; apply Hk; unfold feedback_keys; set_solver.
  - by rewrite fn_lookup_insert_ne.
Qed.

(** X14: [handle_market_feedback] touches nothing but the keys [volume],
    [accepted_volume] and [accepted_price] of the accepted orders: every
    other key of every order, the price and the product among them, is as
    before, and an order that is not among the accepted orders is left as
    it is. *)
Theorem feedback_keeps_other_keys accepted_orders c :
  let c' := (handle_market_feedback accepted_orders c).1 in
  (∀ a (k : string), k ∉ feedback_keys → heap c' a !! k = heap c a !! k) ∧
  (∀ a, a ∉ accepted_orders → heap c' a = heap c a).
Proof.
  intros c'. subst c'. unfold handle_market_feedback.
  pose proof (feedback_loop_keys accepted_orders c) as Hkeys.
  destruct (feedback_loop_spec accepted_orders c)
    as (_ & injected & _ & Hpre & _ & Hframe & _).
  destruct (feedback_loop accepted_orders c) as [c1 [[]|e]]; simpl in *.
  - destruct (set_result_frame "upper" "ready" c1) as [-> _].
    split; [done|]. intros a Ha. apply Hframe. intros Hi. apply Ha.
    destruct Hpre as [rest ->]. apply elem_of_app. by left.
  - split; [done|]. intros a Ha. apply Hframe. intros Hi. apply Ha.
    destruct Hpre as [rest ->]. apply elem_of_app. by left.
Qed.

(** X15: [handle_market_feedback] returns just when no order is listed
    twice, every listed order has a number under [accepted_volume] and
    the future of the round is pending; then it has appended all listed
    orders, in order, and the future is done with the result "ready". *)
Theorem feedback_returns_iff accepted_orders c :
  let c' := (handle_market_feedback accepted_orders c).1 in
  ((handle_market_feedback accepted_orders c).2 = Returns ()
   ↔ NoDup accepted_orders ∧
     (∀ a, a ∈ accepted_orders → numeric_accepted (heap c) a) ∧
     wait_events c !! "upper" = Some Pending) ∧
  ((handle_market_feedback accepted_orders c).2 = Returns () →
   all_orders c' = all_orders c ++ accepted_orders ∧
   wait_events c' = <["upper" := Done "ready"]> (wait_events c)).
Proof.
  intros c'. subst c'. unfold handle_market_feedback.
  pose proof (feedback_loop_returns accepted_orders c) as Hret.
  destruct (feedback_loop_spec accepted_orders c)
    as (Hw & injected & Hao & _ & Hall & _).
  destruct (feedback_loop accepted_orders c) as [c1 [[]|e]]; simpl in *.
  - rewrite (Hall eq_refl) in Hao. unfold set_result. rewrite Hw.
    destruct (wait_events c !! "upper") as [[|r]|] eqn:E; simpl.
    + split; [|by rewrite Hao].
      split; [intros _|done]. destruct Hret as [Hret _].
      destruct (Hret eq_refl). done.
    + split; [|done]. split; [done|]. by intros (_ & _ & ?).
    + split; [|done]. split; [done|]. by intros (_ & _ & ?).
  - split; [|done]. split; [done|]. intros (Hnd & Hnum & _).
    destruct Hret as [_ Hret]. by specialize (Hret (conj Hnd Hnum)).
Qed.

(** X16: the counter-orders are appended before the future is touched: a
    second feedback in a round whose future is already done raises
    [InvalidStateError], and has appended its orders all the same. *)
Theorem second_feedback_appends accepted1 accepted2 c :
  let c1 := (handle_market_feedback accepted1 c).1 in
  let c2 := (handle_market_feedback accepted2 c1).1 in
  (handle_market_feedback accepted1 c).2 = Returns () →
  NoDup accepted2 →
  (∀ a, a ∈ accepted2 → numeric_accepted (heap c1) a) →
  (handle_market_feedback accepted2 c1).2 = Raises InvalidStateError ∧
  all_orders c2 = all_orders c ++ accepted1 ++ accepted2.
Proof.
  intros c1 c2 Hret1 Hnd Hnum.
  destruct (feedback_returns_iff accepted1 c) as [_ Hpost].
  destruct (Hpost Hret1) as [Hao1 Hw1]. fold c1 in Hao1, Hw1.
  clear Hpost Hret1. clearbody c1.
  subst c2. unfold handle_market_feedback.
  pose proof (feedback_loop_returns accepted2 c1) as Hret.
  destruct (feedback_loop_spec accepted2 c1)
    as (Hw & injected & Hao & _ & Hall & _).
  destruct (feedback_loop accepted2 c1) as [c' [[]|e]]; simpl in *.
  - rewrite (Hall eq_refl) in Hao. unfold set_result.
    rewrite Hw, Hw1, lookup_insert_eq. simpl.
    split; [done|]. by rewrite Hao, Hao1, app_assoc.
  - destruct Hret as [_ Hret]. by specialize (Hret (conj Hnd Hnum)).
Qed.

Lemma second_feedback_appends_witness :
  let c1 := (handle_market_feedback [0%nat] two_orders_context).1 in
  let c2 := (handle_market_feedback [1%nat] c1).1 in
  (handle_market_feedback [1%nat] c1).2 = Raises InvalidStateError ∧
  all_orders c2 = all_orders two_orders_context ++ [0%nat] ++ [1%nat].
Proof.
  apply (second_feedback_appends [0%nat] [1%nat] two_orders_context).
  - vm_compute. reflexivity.
  - apply (bool_decide_unpack _). vm_compute. exact I.
  - intros a ->%list_elem_of_singleton. exists (-5). vm_compute. reflexivity.
Defined.

(** X17: a feedback that fails on one of its orders (an order listed
    twice, or without a number under [accepted_volume]) raises [KeyError]
    or [TypeError] and does not touch the future: a lower market that was
    waiting for it keeps waiting. *)
Theorem failed_feedback_keeps_waiting accepted_orders c :
  ¬ (NoDup accepted_orders ∧
     ∀ a, a ∈ accepted_orders → numeric_accepted (heap c) a) →
  let c' := (handle_market_feedback accepted_orders c).1 in
  ((handle_market_feedback accepted_orders c).2
     = Raises (KeyError "accepted_volume") ∨
   (handle_market_feedback accepted_orders c).2 = Raises TypeError) ∧
  wait_events c' = wait_events c ∧
  ∀ R (super_clear_market : context → list product → R) market_products,
    clear_market super_clear_market c market_products = Suspended →
    clear_market super_clear_market c' market_products = Suspended.
Proof.
  intros Hbad c'. subst c'. unfold handle_market_feedback.
  pose proof (feedback_loop_returns accepted_orders c) as Hret.
  pose proof (feedback_loop_raises accepted_orders c) as Hraise.
  pose proof (feedback_loop_wait_events accepted_orders c) as Hw.
  destruct (feedback_loop accepted_orders c) as [c1 [[]|e]]; simpl in *.
  - destruct Hbad. by apply Hret.
  - split_and!; [|done|].
    + destruct (Hraise e eq_refl) as [-> | ->]; [by left | by right].
    + intros R super ps. unfold clear_market. rewrite Hw.
      by destruct (wait_events c !! "upper") as [[|?]|].
Qed.

Lemma failed_feedback_keeps_waiting_witness :
  let c' := (handle_market_feedback [0%nat; 2%nat] two_orders_context).1 in
  ((handle_market_feedback [0%nat; 2%nat] two_orders_context).2
     = Raises (KeyError "accepted_volume") ∨
   (handle_market_feedback [0%nat; 2%nat] two_orders_context).2
     = Raises TypeError) ∧
  wait_events c' = wait_events two_orders_context ∧
  ∀ R (super_clear_market : context → list product → R) market_products,
    clear_market super_clear_market two_orders_context market_products
      = Suspended →
    clear_market super_clear_market c' market_products = Suspended.
Proof.
  apply (failed_feedback_keeps_waiting [0%nat; 2%nat] two_orders_context).
  intros [_ H]. destruct (H 2%nat) as [v Hv]; [set_solver|].
  vm_compute in Hv. discriminate Hv.
Defined.

(** *** [formulate_bids] *)

Lemma market_getter_returns (o : order) :
  (∃ p, market_getter o = Returns p) ↔ has_product o.
Proof.
  unfold market_getter, has_product, getitem.
  destruct (o !! "start_time") as [s|]; simpl;
    [|split; [intros [? ?]; done | intros ([? ?] & _); done]].
  destruct (o !! "end_time") as [e|]; simpl;
    [|split; [intros [? ?]; done | intros (_ & [? ?] & _); done]].
  destruct (o !! "only_hours") as [h|]; simpl;
    [|split; [intros [? ?]; done | intros (_ & _ & [? ?]); done]].
  split; [intros _; split_and!; by eexists | intros _; by eexists].
Qed.

Lemma keyed_returns (l : list order) :
  (∃ kl, keyed market_getter l = Returns kl) ↔ Forall has_product l.
Proof.
  induction l as [|o l IH]; simpl.
  { split; [constructor|by eexists]. }
  rewrite Forall_cons, <- IH, <- market_getter_returns.
  destruct (market_getter o) as [k|e]; simpl;
    destruct (keyed market_getter l) as [kl|e']; simpl;
    (split; [intros [? ?]; try done; split; by eexists
            |intros [[? ?] [? ?]]; try done; by eexists]).
Qed.

Lemma residual_loop_exact accepted book book' :
  residual_loop accepted book = Returns book' →
  book' = book ++ (residual_copy <$>
                     filter (λ o, 1 < Z.abs (residual_of o)) accepted).
Proof.
  revert book. induction accepted as [|o accepted IH]; intros book; simpl.
  { intros [= <-]. by rewrite app_nil_r. }
  unfold getitem.
  destruct (o !! "volume") as [v|] eqn:Ev; simpl; [|done].
  destruct (o !! "accepted_volume") as [av|] eqn:Ea; simpl; [|done].
  destruct v as [a| |], av as [b| |]; simpl; try done.
  assert (residual_of o = a - b) as Hres
    by (unfold residual_of; by rewrite Ev, Ea).
  destruct (Z.gtb_spec (Z.abs (a - b)) 1) as [Hgt|Hle].
  - intros H. rewrite (IH _ H).
    rewrite filter_cons_True by (by rewrite Hres).
    rewrite fmap_cons, <- app_assoc. unfold residual_copy at 2.
    by rewrite Hres.
  - intros H. rewrite (IH _ H).
    by rewrite filter_cons_False by (rewrite Hres; lia).
Qed.

Lemma residual_loop_returns accepted book :
  (∃ book', residual_loop accepted book = Returns book')
  ↔ Forall has_volumes accepted.
Proof.
  revert book. induction accepted as [|o accepted IH]; intros book; simpl.
  { split; [constructor|by eexists]. }
  rewrite Forall_cons. unfold has_volumes at 1, getitem.
  destruct (o !! "volume") as [v|] eqn:Ev; simpl;
    [|split; [by intros [? ?]|by intros [(? & ? & ? & _) _]]].
  destruct (o !! "accepted_volume") as [av|] eqn:Ea; simpl;
    [|split; [by intros [? ?]|by intros [(? & ? & _ & ?) _]]].
  destruct v as [a| |], av as [b| |]; simpl;
    try (split; [by intros [? ?]|by intros [(? & ? & ? & ?) _]]).
  destruct (Z.abs (a - b) >? 1); rewrite IH;
    (split; [intros ?; split; [by eexists _, _|done] | by intros [_ ?]]).
Qed.

(** X18: the order book that [formulate_bids] returns is the rejected
    orders of the products, unchanged and in their order (wherever they
    stand in the list), followed by one copy for each accepted order
    whose residual exceeds 1 in absolute value; the copy has the residual
    as volume and is otherwise the accepted order, [accepted_volume] and
    [accepted_price] included. *)
Theorem formulate_bids_book roles all_orders products accepted rejected book :
  parent_clearing roles all_orders products = Some (accepted, rejected) →
  formulate_bids roles all_orders products = Returns book →
  book = filter (λ o, in_products products o = true) rejected
         ++ (residual_copy <$>
               filter (λ o, 1 < Z.abs (residual_of o)) accepted).
Proof.
  intros Hp. unfold formulate_bids.
  rewrite (roles_loop_parent products _ _ _ _ _ Hp). unfold groupby.
  destruct (keyed market_getter rejected) as [kl|] eqn:Ek; simpl; [|done].
  intros H. apply residual_loop_exact in H as ->.
  by rewrite extend_rejected_flat, runs_flat, (keyed_filter _ _ _ Ek).
Qed.

Lemma formulate_bids_book_witness :
  [mk_order (-7) None; <["volume" := VNum 6]> (mk_order 10 (Some 4))]
  = filter (λ o, in_products [hour1] o = true) [mk_order (-7) None]
    ++ (residual_copy <$>
          filter (λ o, 1 < Z.abs (residual_of o))
                 [mk_order 10 (Some 9); mk_order 10 (Some 4)]).
Proof.
  apply (formulate_bids_book mixed_roles [] [hour1]); vm_compute; reflexivity.
Defined.

(** X19: with an intermediate role registered, [formulate_bids] returns
    just when every rejected order has the three keys of its product,
    whether the product is asked for or not, and every accepted order has
    numbers under [volume] and [accepted_volume]. *)
Theorem formulate_bids_returns_iff roles all_orders products accepted rejected :
  parent_clearing roles all_orders products = Some (accepted, rejected) →
  (∃ book, formulate_bids roles all_orders products = Returns book)
  ↔ Forall has_product rejected ∧ Forall has_volumes accepted.
Proof.
  intros Hp. unfold formulate_bids.
  rewrite (roles_loop_parent products _ _ _ _ _ Hp). unfold groupby.
  rewrite <- keyed_returns.
  destruct (keyed market_getter rejected) as [kl|e] eqn:Ek; simpl.
  - rewrite residual_loop_returns. split; [intros ?; split; [by eexists|done]|].
    by intros [_ ?].
  - split; [by intros [? ?]|by intros [[? ?] _]].
Qed.

Lemma formulate_bids_returns_iff_witness :
  (∃ book, formulate_bids mixed_roles [] [hour1] = Returns book)
  ↔ Forall has_product [mk_order (-7) None] ∧
    Forall has_volumes [mk_order 10 (Some 9); mk_order 10 (Some 4)].
Proof.
  apply (formulate_bids_returns_iff mixed_roles [] [hour1]). reflexivity.
Defined.

(** X20: only the first intermediate role is asked to clear: the roles
    before it and the roles after it, intermediate or not, change nothing
    in what [formulate_bids] returns or raises. *)
Theorem first_intermediate_role_only before clear after all_orders products :
  Forall (λ r, is_intermediate r = false) before →
  formulate_bids (before ++ PayAsClearIntermediateRole clear :: after)
    all_orders products
  = formulate_bids [PayAsClearIntermediateRole clear] all_orders products.
Proof.
  intros Hb. unfold formulate_bids. f_equal.
  induction Hb as [|[c|] before Hr _ IH]; simpl; done.
Qed.

Lemma first_intermediate_role_only_witness :
  formulate_bids
    ([OtherRole] ++ PayAsClearIntermediateRole
                      (λ _ _, ([mk_order 10 (Some 9)], [])) :: mixed_roles)
    [] [hour1]
  = formulate_bids
      [PayAsClearIntermediateRole (λ _ _, ([mk_order 10 (Some 9)], []))]
      [] [hour1].
Proof.
  apply (first_intermediate_role_only [OtherRole]). repeat constructor.
Defined.

(** *** Rounds *)

Lemma feedback_loop_all accepted_orders c :
  NoDup accepted_orders →
  (∀ a, a ∈ accepted_orders → numeric_accepted (heap c) a) →
  ∃ c1, feedback_loop accepted_orders c = (c1, Returns ()) ∧
        all_orders c1 = all_orders c ++ accepted_orders ∧
        wait_events c1 = wait_events c.
Proof.
  intros Hnd Hnum.
  pose proof (proj2 (feedback_loop_returns accepted_orders c) (conj Hnd Hnum))
    as Hret.
  destruct (feedback_loop_spec accepted_orders c)
    as (Hw & injected & Hao & _ & Hall & _).
  destruct (feedback_loop accepted_orders c) as [c1 r]. simpl in *.
  subst r. exists c1. by rewrite Hao, (Hall eq_refl).
Qed.



(** X24: a feedback that arrives after [setup] and before the first
    [opening] finds no future: it raises [KeyError] for "upper", after it
    has appended its counter-orders. *)
Theorem feedback_before_opening accepted_orders c :
  NoDup accepted_orders →
  (∀ a, a ∈ accepted_orders → numeric_accepted (heap c) a) →
  (handle_market_feedback accepted_orders (setup c)).2
    = Raises (KeyError "upper") ∧
  all_orders (handle_market_feedback accepted_orders (setup c)).1
    = all_orders c ++ accepted_orders.
Proof.
  intros Hnd Hnum. unfold handle_market_feedback.
  destruct (feedback_loop_all accepted_orders (setup c) Hnd Hnum)
    as (c1 & -> & Hao & Hw).
  unfold set_result. rewrite Hw. simpl. by rewrite lookup_empty.
Qed.

Lemma feedback_before_opening_witness :
  (handle_market_feedback [0%nat] (setup two_orders_context)).2
    = Raises (KeyError "upper") ∧
  all_orders (handle_market_feedback [0%nat] (setup two_orders_context)).1
    = all_orders two_orders_context ++ [0%nat].
Proof.
  apply (feedback_before_opening [0%nat] two_orders_context).
  - apply (bool_decide_unpack _). vm_compute. exact I.
  - intros a ->%list_elem_of_singleton. exists 6. vm_compute. reflexivity.
Defined.

End CouplingFacts.

(** ** The window of [calculate_reward] *)

Module FuelScriptFacts.
Import Py Intermediate FuelScript.

Lemma window_loop_spec orderbook lo0 hi0 lo hi :
  window_loop orderbook lo0 hi0 = Returns (lo, hi) →
  lo ≤ lo0 ∧ hi0 ≤ hi ∧
  Forall (λ o, ∃ s e, o !! "start_time" = Some (VNum s) ∧
                      o !! "end_time" = Some (VNum e) ∧
                      lo ≤ s ∧ e ≤ hi) orderbook ∧
  (lo = lo0 ∨ ∃ o, o ∈ orderbook ∧ o !! "start_time" = Some (VNum lo)) ∧
  (hi = hi0 ∨ ∃ o, o ∈ orderbook ∧ o !! "end_time" = Some (VNum hi)).
Proof.
  revert lo0 hi0. induction orderbook as [|o orderbook IH]; intros lo0 hi0.
  { simpl. intros [= <- <-].
    split_and!; [lia|lia|constructor|by left|by left]. }
  simpl. unfold time_of, getitem.
  destruct (o !! "start_time") as [[s| |]|] eqn:Es; simpl; try done.
  destruct (o !! "end_time") as [[e| |]|] eqn:Ee; simpl; try done.
  intros H. apply IH in H as (Hlo & Hhi & Hall & Hs & He).
  split_and!.
  - destruct (Z.ltb_spec s lo0); lia.
  - destruct (Z.gtb_spec e hi0); lia.
  - constructor; [|done]. exists s, e. split_and!; try done.
    + destruct (Z.ltb_spec s lo0); lia.
    + destruct (Z.gtb_spec e hi0); lia.
  - destruct Hs as [->|(o' & Ho' & Hs)].
    + destruct (Z.ltb_spec s lo0); [right|by left].
      exists o. split; [apply list_elem_of_here|done].
    + right. exists o'. split; [by apply list_elem_of_further|done].
  - destruct He as [->|(o' & Ho' & He)].
    + destruct (Z.gtb_spec e hi0); [right|by left].
      exists o. split; [apply list_elem_of_here|done].
    + right. exists o'. split; [by apply list_elem_of_further|done].
Qed.

Lemma window_loop_returns orderbook lo0 hi0 :
  Forall (λ o, ∃ s e, o !! "start_time" = Some (VNum s) ∧
                      o !! "end_time" = Some (VNum e)) orderbook →
  ∃ lo hi, window_loop orderbook lo0 hi0 = Returns (lo, hi).
Proof.
  intros H. revert lo0 hi0.
  induction H as [|o orderbook (s & e & Hs & He) _ IH]; intros lo0 hi0; simpl.
  { by eexists _, _. }
  unfold time_of, getitem. rewrite Hs, He. simpl. apply IH.
Qed.

(** X21: the slice that [calculate_reward] assigns to starts at the
    earliest of the last instant of the index and the start times of the
    orders, and ends one step of the index before the latest of the first
    instant of the index and the end times of the orders: the bounds
    cover every order, and each is attained. With an empty order book the
    slice runs from the last instant of the index to one step before the
    first. *)
Theorem reward_window_covers index_first index_last freq orderbook lo hi :
  reward_window index_first index_last freq orderbook = Returns (lo, hi) →
  lo ≤ index_last ∧ index_first ≤ hi + freq ∧
  Forall (λ o, ∃ s e, o !! "start_time" = Some (VNum s) ∧
                      o !! "end_time" = Some (VNum e) ∧
                      lo ≤ s ∧ e ≤ hi + freq) orderbook ∧
  (lo = index_last ∨
   ∃ o, o ∈ orderbook ∧ o !! "start_time" = Some (VNum lo)) ∧
  (hi + freq = index_first ∨
   ∃ o, o ∈ orderbook ∧ o !! "end_time" = Some (VNum (hi + freq))) ∧
  (orderbook = [] → lo = index_last ∧ hi = index_first - freq).
Proof.
  unfold reward_window.
  destruct (window_loop orderbook index_last index_first)
    as [[lo' hi']|] eqn:E; simpl; [|done].
  intros [= <- <-].
  destruct (window_loop_spec _ _ _ _ _ E) as (Hlo & Hhi & Hall & Hs & He).
  replace (hi' - freq + freq) with hi' by lia.
  split_and!; try done.
  intros ->. simpl in E. by injection E as <- <-.
Qed.

Lemma reward_window_covers_witness :
  2 ≤ 9 ∧ 0 ≤ 11 + 1 ∧
  Forall (λ o, ∃ s e, o !! "start_time" = Some (VNum s) ∧
                      o !! "end_time" = Some (VNum e) ∧
                      2 ≤ s ∧ e ≤ 11 + 1)
         [timed_order 4 12; timed_order 2 3] ∧
  (2 = 9 ∨ ∃ o, o ∈ [timed_order 4 12; timed_order 2 3] ∧
               o !! "start_time" = Some (VNum 2)) ∧
  (11 + 1 = 0 ∨ ∃ o, o ∈ [timed_order 4 12; timed_order 2 3] ∧
                    o !! "end_time" = Some (VNum (11 + 1))) ∧
  ([timed_order 4 12; timed_order 2 3] = [] → 2 = 9 ∧ 11 = 0 - 1).
Proof.
  apply (reward_window_covers 0 9 1 [timed_order 4 12; timed_order 2 3] 2 11).
  vm_compute. reflexivity.
Defined.

(** X22: the window is computed just when every order has times under
    [start_time] and [end_time]; an order without one of the keys raises
    [KeyError], and one with something else than a time raises
    [TypeError]. *)
Theorem reward_window_returns_iff index_first index_last freq orderbook :
  ((∃ w, reward_window index_first index_last freq orderbook = Returns w)
   ↔ Forall (λ o, ∃ s e, o !! "start_time" = Some (VNum s) ∧
                         o !! "end_time" = Some (VNum e)) orderbook) ∧
  (∀ x, reward_window index_first index_last freq orderbook = Raises x →
        x = KeyError "start_time" ∨ x = KeyError "end_time" ∨ x = TypeError).
Proof.
  unfold reward_window. split.
  - split.
    + intros [[lo hi] H].
      destruct (window_loop orderbook index_last index_first)
        as [[lo' hi']|] eqn:E; simpl in H; [|done].
      destruct (window_loop_spec _ _ _ _ _ E) as (_ & _ & Hall & _).
      eapply Forall_impl; [exact Hall|]. simpl.
      intros o (s & e & ? & ? & _). by exists s, e.
    + intros H.
      destruct (window_loop_returns _ index_last index_first H)
        as (lo & hi & ->).
      simpl. by eexists.
  - intros x.
    assert (∀ lo0 hi0, window_loop orderbook lo0 hi0 = Raises x →
              x = KeyError "start_time" ∨ x = KeyError "end_time"
              ∨ x = TypeError) as Hloop.
    { induction orderbook as [|o orderbook IH]; intros lo0 hi0; simpl; [done|].
      unfold time_of, getitem.
      destruct (o !! "start_time") as [[s| |]|]; simpl;
        try (intros [= <-]; tauto).
      destruct (o !! "end_time") as [[e| |]|]; simpl;
        try (intros [= <-]; tauto).
      apply IH. }
    destruct (window_loop orderbook index_last index_first)
      as [[lo hi]|e] eqn:E; simpl; [done|].
    intros [= <-]. by eapply Hloop.
Qed.

End FuelScriptFacts.
